(** * Encoders, loss and action decoder of the Porygon model

    A shallow embedding of [src/ai/models/porygon_model/predictor.py]:
    [make_input_matrix] (the state encoder), [make_actual_output_list]
    (the target encoder), [calculate_loss] and the decision part of
    [predict_move] (the action decoder).

    Modelling choices.
    - Python floats are idealised: as rationals ([Q]) in the encoders and
      the decoder, which only divide and compare, and as real numbers
      ([R]) in the loss, which needs the natural logarithm.  Rounding,
      underflow and overflow are therefore outside the model.
    - Python exceptions are values of [exn]; a function that can raise
      returns a [result].
    - A one-dimensional sequence is a [pyseq]: a Python list or a numpy
      array.  Both can be sliced, iterated and handed to [max]; only a
      list has the method [index].  [np.array] applied to a list of rows
      is the list of rows itself when the rows have one length, and
      raises ValueError when they are ragged (numpy from 1.24 on).
    - A Python [dict] whose key order is irrelevant is a [gmap]; the
      innermost dictionaries of [childrenMap], of which the source reads
      the first key, are the lists of their keys in insertion order. *)

From Stdlib Require Import ZArith QArith Reals Lra Lia.
From stdpp Require Import base list gmap strings sorting.

(** ** Exceptions and the error monad *)

Inductive exn :=
  ZeroDivisionError | KeyError | IndexError | ValueError | AttributeError.

Inductive result (A : Type) := Ok (a : A) | Err (e : exn).
Arguments Ok {A} a.
Arguments Err {A} e.

#[global] Instance result_ret : MRet result := fun A a => Ok a.
#[global] Instance result_bind : MBind result := fun A B f m =>
  match m with Ok a => f a | Err e => Err e end.
#[global] Instance result_fmap : FMap result := fun A B f m =>
  match m with Ok a => Ok (f a) | Err e => Err e end.

(** ** Python primitives used by the source *)

(** [a / b] on floats: a zero divisor raises. *)
Definition py_div (a b : Q) : result Q :=
  if Qeq_bool b 0 then Err ZeroDivisionError else Ok (a / b)%Q.

(** [l[i] = v] for an [int] index: a negative index counts from the end,
    an index outside [-len, len) raises. *)
Definition py_setitem {A} (l : list A) (i : Z) (v : A) : result (list A) :=
  let n := Z.of_nat (length l) in
  if decide (0 ≤ i < n)%Z then Ok (<[Z.to_nat i := v]> l)
  else if decide (- n ≤ i < 0)%Z then Ok (<[Z.to_nat (n + i) := v]> l)
  else Err IndexError.

(** [l[i]] for an index that is never negative. *)
Definition py_getitem {A} (l : list A) (i : nat) : result A :=
  match l !! i with Some x => Ok x | None => Err IndexError end.

(** [l[a:b]] for [0 <= a <= b]: slices are clipped to the sequence. *)
Definition py_slice {A} (l : list A) (a b : nat) : list A :=
  take (b - a) (drop a l).

(** [max(l)]: the first of the greatest items; raises on an empty
    sequence. *)
Definition py_max (l : list Q) : result Q :=
  match l with
  | [] => Err ValueError
  | x :: l' => Ok (fold_left (fun m y => if Qle_bool y m then m else y) l' x)
  end.

(** [l.index(v)]: the first position holding a value equal to [v]. *)
Fixpoint py_index (l : list Q) (v : Q) : result nat :=
  match l with
  | [] => Err ValueError
  | x :: l' => if Qeq_bool x v then Ok 0%nat else S <$> py_index l' v
  end.

(** A Python list or a numpy array of numbers. *)
Inductive pyseq := PyList (l : list Q) | NdArray (l : list Q).

Definition items (s : pyseq) : list Q :=
  match s with PyList l => l | NdArray l => l end.

(** [s[a:b]]: a slice of a list is a list, a slice of an array an
    array. *)
Definition seq_slice (s : pyseq) (a b : nat) : pyseq :=
  match s with
  | PyList l => PyList (py_slice l a b)
  | NdArray l => NdArray (py_slice l a b)
  end.

(** [max(s)] iterates over either kind of sequence. *)
Definition seq_max (s : pyseq) : result Q := py_max (items s).

(** [s.index(v)]: a numpy array has no such method. *)
Definition seq_index (s : pyseq) (v : Q) : result nat :=
  match s with
  | PyList l => py_index l v
  | NdArray _ => Err AttributeError
  end.

(** [np.array(mat)] for a list of rows: the rows must have one length. *)
Definition np_array (mat : list (list Q)) : result (list (list Q)) :=
  match mat with
  | [] => Ok []
  | row :: rest =>
      if forallb (fun r => (length r =? length row)%nat) rest then Ok mat
      else Err ValueError
  end.

(** [list.sort(key=...)] and [sorted(..., key=...)]: a stable sort. *)
Fixpoint insert_by_key {A} (key : A → Z) (x : A) (l : list A) : list A :=
  match l with
  | [] => [x]
  | y :: l' =>
      if (key x <=? key y)%Z then x :: y :: l'
      else y :: insert_by_key key x l'
  end.

Definition sort_by_key {A} (key : A → Z) (l : list A) : list A :=
  foldr (insert_by_key key) [] l.

(** ** Configuration *)

(** Modelled from the spec: [src/utils/config.py] is not part of the
    source file; the spec gives the reference configuration, which
    the module's own [INPUT_SHAPE] and [OUTPUT_SIZE] presuppose. *)
Definition POKEMON_MOVE_LIMIT : nat := 4.
Definition POKEMON_PARTY_LIMIT : nat := 6.
Arguments POKEMON_MOVE_LIMIT : simpl never.
Arguments POKEMON_PARTY_LIMIT : simpl never.

(** Very small value used in place of zero. *)
Definition EPSILON : Q := 1 # 10000000000000000.

Definition INPUT_SHAPE : nat * nat := (5, 12)%nat.
Definition OUTPUT_SIZE : nat := 31.

(** ** Game entities

    Modelled from the spec: the classes [Move], [Pokemon], [Party] and
    [Player] of [src.classes] are not part of the source file; the
    records below carry what the accessors named in the source return. *)

Record Move := mkMove { get_pp : Q; get_base_pp : Q }.

Module MoveBank.
Record t := mk { get_as_list : list Move }.
End MoveBank.

Record Pokemon := mkPokemon {
  get_id : Z;
  get_hp : Q;
  get_base_hp : Q;
  get_move_bank : MoveBank.t
}.

Module Party.
Record t := mk { get_as_list : list Pokemon; get_starting : Pokemon }.

(** Modelled from the spec: [get_sorted_list] is not in the source file;
    the canonical order of a party is by Pokémon identifier, ascending. *)
Definition get_sorted_list (p : t) : list Pokemon :=
  sort_by_key get_id (get_as_list p).
End Party.

Record Player := mkPlayer { get_party : Party.t }.

(** ** Search tree

    Modelled from the spec: [mcts.py] is not part of the sources at
    hand.  A node carries the attributes the source reads:
    [action_type], [token], [outcome], the Pokémon identifier returned by
    [detokenize_child()], [children], and [childrenMap], which maps a
    token and an action kind to a dictionary keyed by slot index. *)

Inductive MonteCarloActionType := ATTACK | SWITCH.

#[warnings="-register-all"]
Inductive MonteCarloNode := mkNode {
  action_type : MonteCarloActionType;
  token : string;
  outcome : Q;
  detokenize_child : Z;
  children : list MonteCarloNode;
  childrenMap : gmap string (MonteCarloActionType → option (list Z))
}.

(** [list(node.childrenMap[child.token][ty].keys())[0]] *)
Definition first_key (node child : MonteCarloNode) (ty : MonteCarloActionType)
  : result Z :=
  match childrenMap node !! token child with
  | None => Err KeyError
  | Some by_type =>
      match by_type ty with
      | None => Err KeyError
      | Some [] => Err IndexError
      | Some (k :: _) => Ok k
      end
  end.

(** ** State encoder *)

(** One iteration of the loop of [fill_rows]: the row of a Pokémon. *)
Definition fill_row (pkmn : Pokemon) : result (list Q) :=
  hp_comp ← py_div (get_hp pkmn) (get_base_hp pkmn);
  let move_list := MoveBank.get_as_list (get_move_bank pkmn) in
  move_comps ← mapM (fun move => py_div (get_pp move) (get_base_pp move))
                    move_list;
  Ok ([hp_comp] ++ move_comps
        ++ replicate (POKEMON_MOVE_LIMIT - length move_list) EPSILON).

Definition fill_rows (mat : list (list Q)) (pokemon_list : list Pokemon)
  : result (list (list Q)) :=
  rows ← mapM fill_row pokemon_list;
  Ok (mat ++ rows).

Definition fill_empty (mat : list (list Q)) (num : nat) : list (list Q) :=
  mat ++ replicate num [EPSILON; EPSILON; EPSILON; EPSILON; EPSILON].

Definition make_input_matrix (player other_player : Player)
  : result (list (list Q)) :=
  let player_pokemon := Party.get_sorted_list (get_party player) in
  let other_player_pokemon := Party.get_sorted_list (get_party other_player) in
  mat ← fill_rows [] player_pokemon;
  let mat := fill_empty mat (POKEMON_PARTY_LIMIT - length player_pokemon) in
  mat ← fill_rows mat other_player_pokemon;
  let mat := fill_empty mat (POKEMON_PARTY_LIMIT - length other_player_pokemon) in
  np_array mat.

(** ** Target encoder *)

(** The first loop over [node.children]: switch probabilities in the
    party's as-is order. *)
Fixpoint switch_loop (node : MonteCarloNode) (cs : list MonteCarloNode)
    (switch_probs : list Q) : result (list Q) :=
  match cs with
  | [] => Ok switch_probs
  | child :: cs' =>
      match action_type child with
      | SWITCH =>
          switch_idx ← first_key node child SWITCH;
          prob ← py_div (outcome child) (outcome node);
          switch_probs ← py_setitem switch_probs switch_idx prob;
          switch_loop node cs' switch_probs
      | ATTACK => switch_loop node cs' switch_probs
      end
  end.

(** The switch segment: the as-is probabilities paired with the
    Pokémon, sorted by identifier, then padded for a short party. *)
Definition make_switch_probs (player : Player) (node : MonteCarloNode)
  : result (list Q) :=
  let player_pokemon := Party.get_as_list (get_party player) in
  switch_probs ← switch_loop node (children node)
                   (replicate (length player_pokemon) EPSILON);
  let pokemon_switch_tuple := zip switch_probs player_pokemon in
  let pokemon_switch_tuple :=
    sort_by_key (fun v => get_id v.2) pokemon_switch_tuple in
  let switch_probs := pokemon_switch_tuple.*1 in
  Ok (switch_probs
        ++ replicate (POKEMON_PARTY_LIMIT - length player_pokemon) EPSILON).

(** The second loop over [node.children]: the dictionary from Pokémon
    identifier to its block of move probabilities. *)
Fixpoint move_loop (node : MonteCarloNode) (cs : list MonteCarloNode)
    (pkmn_id_to_move_prob_map : gmap Z (list Q)) : result (gmap Z (list Q)) :=
  match cs with
  | [] => Ok pkmn_id_to_move_prob_map
  | child :: cs' =>
      match action_type child with
      | ATTACK =>
          move_idx ← first_key node child ATTACK;
          let pkmn_id := detokenize_child child in
          let block :=
            default (replicate POKEMON_MOVE_LIMIT EPSILON)
                    (pkmn_id_to_move_prob_map !! pkmn_id) in
          prob ← py_div (outcome child) (outcome node);
          block ← py_setitem block move_idx prob;
          move_loop node cs' (<[pkmn_id := block]> pkmn_id_to_move_prob_map)
      | SWITCH => move_loop node cs' pkmn_id_to_move_prob_map
      end
  end.

(** [pkmn_id_to_move_prob_map[pkmn.get_id()]]: a plain dictionary
    lookup. *)
Definition move_block (m : gmap Z (list Q)) (pkmn : Pokemon)
  : result (list Q) :=
  match m !! get_id pkmn with Some block => Ok block | None => Err KeyError end.

(** The move segment: the blocks of the party in sorted order. *)
Definition make_move_probs (player : Player) (node : MonteCarloNode)
  : result (list Q) :=
  pkmn_id_to_move_prob_map ← move_loop node (children node) ∅;
  blocks ← mapM (move_block pkmn_id_to_move_prob_map)
                (Party.get_sorted_list (get_party player));
  Ok (concat blocks).

Definition make_actual_output_list (player : Player) (node : MonteCarloNode)
  : result pyseq :=
  switch_probs ← make_switch_probs player node;
  move_probs ← make_move_probs player node;
  let outcome_list := [outcome node] in
  let mat := switch_probs ++ move_probs ++ outcome_list in
  Ok (NdArray mat).

(** ** Loss function *)

(** [np.log]: defined on the positive reals; elsewhere numpy yields a
    value that is not a real number ([-inf] or [nan]), here [None]. *)
Definition np_log (x : R) : option R :=
  if Rlt_dec 0 x then Some (ln x) else None.

(** [np.dot] of two vectors: their lengths must agree; a component that
    is not a real number makes the sum one as well. *)
Definition np_dot (a : list R) (b : list (option R)) : result (option R) :=
  if decide (length a = length b) then
    Ok (foldr (fun p acc => y ← p.2; s ← acc; Some (p.1 * y + s)%R)
              (Some 0%R) (zip a b))
  else Err ValueError.

(** [v[-1]] *)
Definition py_last (v : list R) : result R :=
  match last v with Some x => Ok x | None => Err IndexError end.

Definition calculate_loss (game_output output : list R) : result (option R) :=
  predicted_outcome ← py_last output;
  game_outcome ← py_last game_output;
  let outcome_loss := Rsqr (game_outcome - predicted_outcome) in
  let search_probs := removelast output in
  let policy_probs := removelast game_output in
  policy_comp ← np_dot search_probs (np_log <$> policy_probs);
  Ok (pc ← policy_comp; Some (outcome_loss + pc)%R).

(** ** Action decoder *)

(** The model handed back by [predict_move]: [RandomModel] with one of
    the two [take_turn] closures attached, here the closure's captured
    value. *)
Inductive ModelInterface :=
  | TakeTurnAttack (attack : Move)
  | TakeTurnSwitch (highest_switch_idx : nat).

(** A call of one of the three callbacks handed to [take_turn]. *)
Inductive Call :=
  | do_move (m : Move)
  | use_item
  | switch_pokemon (i : nat).

(** The callbacks a [take_turn] closure calls, in order. *)
Definition take_turn (model : ModelInterface) : list Call :=
  match model with
  | TakeTurnAttack attack => [do_move attack]
  | TakeTurnSwitch highest_switch_idx => [switch_pokemon highest_switch_idx]
  end.

(** The loop that looks the starting Pokémon up in the sorted party;
    [-1] when it is not there. *)
Fixpoint find_current (current_pokemon_id : Z) (l : list Pokemon) (idx : Z)
  : Z :=
  match l with
  | [] => (-1)%Z
  | pokemon :: l' =>
      if (get_id pokemon =? current_pokemon_id)%Z then idx
      else find_current current_pokemon_id l' (idx + 1)%Z
  end.

(** [predict_move] from the model's output on. *)
Definition decode_action (output : pyseq) (player : Player)
  : result ModelInterface :=
  let current_pokemon_id := get_id (Party.get_starting (get_party player)) in
  let current_pokemon_idx :=
    find_current current_pokemon_id
      (Party.get_sorted_list (get_party player)) 0 in
  let move_probs :=
    if decide (0 ≤ current_pokemon_idx)%Z then
      let start_idx :=
        (POKEMON_PARTY_LIMIT
         + Z.to_nat current_pokemon_idx * POKEMON_MOVE_LIMIT)%nat in
      seq_slice output start_idx (start_idx + POKEMON_MOVE_LIMIT)
    else PyList [] in
  let switch_probs := seq_slice output 0 POKEMON_PARTY_LIMIT in
  highest_move_prob ← seq_max move_probs;
  highest_switch_prob ← seq_max switch_probs;
  if Qle_bool highest_switch_prob highest_move_prob then
    highest_move_idx ← seq_index move_probs highest_move_prob;
    attack ← py_getitem
               (MoveBank.get_as_list
                  (get_move_bank (Party.get_starting (get_party player))))
               highest_move_idx;
    Ok (TakeTurnAttack attack)
  else
    highest_switch_idx ← seq_index switch_probs highest_switch_prob;
    Ok (TakeTurnSwitch highest_switch_idx).

(** [model] stands for [model.predict]: a Keras model returns a numpy
    array, any other object with a [predict] method may return a list. *)
Definition predict_move (model : list (list Q) → pyseq)
    (player other_player : Player) : result ModelInterface :=
  input_matrix ← make_input_matrix player other_player;
  let output := model input_matrix in
  decode_action output player.

(** ** Predicates used in the statements *)

#[global] Instance exn_eq_dec : EqDecision exn.
Proof. solve_decision. Defined.
#[global] Instance result_eq_dec {A} `{EqDecision A} : EqDecision (result A).
Proof. solve_decision. Defined.
#[global] Instance MonteCarloActionType_eq_dec : EqDecision MonteCarloActionType.
Proof. solve_decision. Defined.

(** A Pokémon whose base HP and base PP values are not zero: the
    divisions of its row are defined. *)
Definition base_stats_nonzero (pkmn : Pokemon) : Prop :=
  ¬ (get_base_hp pkmn == 0)%Q
  ∧ Forall (fun move => ¬ (get_base_pp move == 0)%Q)
           (MoveBank.get_as_list (get_move_bank pkmn)).

(** A Pokémon whose current HP and current PP values are not zero. *)
Definition stats_nonzero (pkmn : Pokemon) : Prop :=
  ¬ (get_hp pkmn == 0)%Q
  ∧ Forall (fun move => ¬ (get_pp move == 0)%Q)
           (MoveBank.get_as_list (get_move_bank pkmn)).

(** [len(pkmn.get_move_bank().get_as_list())] *)
Definition move_bank_size (pkmn : Pokemon) : nat :=
  length (MoveBank.get_as_list (get_move_bank pkmn)).

(** [player.get_party().get_as_list()] *)
Definition party_list (player : Player) : list Pokemon :=
  Party.get_as_list (get_party player).

(** The as-is party slot a SWITCH child of [node] targets, as the first
    loop of [make_actual_output_list] resolves it. *)
Definition switch_target (node child : MonteCarloNode) : option Z :=
  match action_type child with
  | SWITCH =>
      match first_key node child SWITCH with
      | Ok k => Some k
      | Err _ => None
      end
  | ATTACK => None
  end.

(** [node] with its children in another order. *)
Definition with_children (node : MonteCarloNode) (cs : list MonteCarloNode)
  : MonteCarloNode :=
  mkNode (action_type node) (token node) (outcome node)
         (detokenize_child node) cs (childrenMap node).

(** The slots targeted by the SWITCH children resolve inside a party of
    [n] Pokémon, and no two children target the same slot. *)
Definition switch_children_ok (node : MonteCarloNode)
    (cs : list MonteCarloNode) (n : nat) : Prop :=
  Forall (fun child => action_type child = SWITCH →
            ∃ i : nat, switch_target node child = Some (Z.of_nat i)
                       ∧ (i < n)%nat) cs
  ∧ NoDup (omap (switch_target node) cs).

(** [m] is the greatest entry of [l] and [k] the first position holding
    it. *)
Definition first_argmax (l : list Q) (k : nat) (m : Q) : Prop :=
  l !! k = Some m
  ∧ (∀ (j : nat) y, l !! j = Some y → (y <= m)%Q)
  ∧ (∀ (j : nat) y, (j < k)%nat → l !! j = Some y → (y < m)%Q).

(** [player.get_party().get_starting()] *)
Definition starting (player : Player) : Pokemon :=
  Party.get_starting (get_party player).

(** The starting Pokémon's identifier is first met at position [i] of
    the sorted party. *)
Definition located_at (player : Player) (i : nat) : Prop :=
  ∃ pkmn,
    Party.get_sorted_list (get_party player) !! i = Some pkmn
    ∧ get_id pkmn = get_id (starting player)
    ∧ ∀ (j : nat) q, (j < i)%nat →
        Party.get_sorted_list (get_party player) !! j = Some q →
        get_id q ≠ get_id (starting player).

(** The loss in the words of its description: the squared difference of
    the two trailing outcomes, and the sum over the leading positions of
    the output's entry times the logarithm of the target's entry. *)
Definition spec_outcome_term (target output : list R) : R :=
  let n := (length target - 1)%nat in
  Rsqr (nth n target 0%R - nth n output 0%R).

Definition spec_policy_term (target output : list R) : R :=
  let n := (length target - 1)%nat in
  foldr Rplus 0%R
        ((fun i => nth i output 0%R * ln (nth i target 0%R))%R <$> seq 0 n).

(** ** Concrete inputs *)

Definition tackle : Move := mkMove 10 35.
Definition growl : Move := mkMove 0 40.

Definition bulbasaur : Pokemon := mkPokemon 5 45 45 (MoveBank.mk [tackle]).
Definition pikachu : Pokemon := mkPokemon 10 20 35 (MoveBank.mk [tackle]).
Definition fainted : Pokemon := mkPokemon 7 0 40 (MoveBank.mk [tackle; growl]).

Definition solo_player : Player := mkPlayer (Party.mk [pikachu] pikachu).
Definition duo_player : Player :=
  mkPlayer (Party.mk [pikachu; bulbasaur] pikachu).
Definition fainted_player : Player := mkPlayer (Party.mk [fainted] fainted).
Definition empty_player : Player := mkPlayer (Party.mk [] bulbasaur).
Definition stray_player : Player := mkPlayer (Party.mk [pikachu] bulbasaur).

(** A Pokémon with one move more than POKEMON_MOVE_LIMIT. *)
Definition hoarder : Pokemon :=
  mkPokemon 3 30 30 (MoveBank.mk [tackle; growl; tackle; growl; tackle]).
Definition hoarder_player : Player := mkPlayer (Party.mk [hoarder] hoarder).
Definition hoarders_player : Player :=
  mkPlayer (Party.mk (replicate 6 hoarder) hoarder).

(** A child of a root: its own children are not read. *)
Definition leaf (ty : MonteCarloActionType) (tok : string) (o : Q) (id : Z)
  : MonteCarloNode :=
  mkNode ty tok o id [] ∅.

Definition keys_of (ty : MonteCarloActionType) (k : Z)
  : MonteCarloActionType → option (list Z) :=
  fun ty' => if decide (ty' = ty) then Some [k] else None.

(** A root without children. *)
Definition bare_root : MonteCarloNode := mkNode SWITCH "root" 1 0 [] ∅.

(** A root whose only child is the first move of Pokémon 10. *)
Definition attack_root : MonteCarloNode :=
  mkNode SWITCH "root" 4 0 [leaf ATTACK "m0" 3 10]
         (<["m0" := keys_of ATTACK 0]> ∅).

(** A root with a move of Pokémon 10 and a switch to as-is slot 1. *)
Definition duo_root : MonteCarloNode :=
  mkNode SWITCH "root" 4 0
         [leaf SWITCH "s1" 1 0; leaf ATTACK "m0" 3 10; leaf ATTACK "b0" 2 5]
         (<["s1" := keys_of SWITCH 1]>
            (<["m0" := keys_of ATTACK 0]> (<["b0" := keys_of ATTACK 0]> ∅))).

(** The root [attack_root] with an outcome of zero. *)
Definition zero_root : MonteCarloNode :=
  mkNode SWITCH "root" 0 0 [leaf ATTACK "m0" 3 10]
         (<["m0" := keys_of ATTACK 0]> ∅).

(** Output vectors of OUTPUT_SIZE entries, as a model could return. *)
Definition attack_output : list Q :=
  [1; 2; 3; 4; 5; 6;  9; 1; 1; 9;  0; 0; 0; 0;  0; 0; 0; 0;
   0; 0; 0; 0;  0; 0; 0; 0;  0; 0; 0; 0;  1]%Q.
Definition tie_output : list Q :=
  [1; 2; 6; 4; 6; 5;  6; 1; 1; 6;  0; 0; 0; 0;  0; 0; 0; 0;
   0; 0; 0; 0;  0; 0; 0; 0;  0; 0; 0; 0;  1]%Q.
Definition switch_output : list Q :=
  [1; 2; 7; 4; 7; 6;  0; 6; 1; 0;  0; 0; 0; 0;  0; 0; 0; 0;
   0; 0; 0; 0;  0; 0; 0; 0;  0; 0; 0; 0;  1]%Q.
Definition padding_output : list Q :=
  [1; 2; 3; 4; 5; 6;  0; 9; 1; 0;  0; 0; 0; 0;  0; 0; 0; 0;
   0; 0; 0; 0;  0; 0; 0; 0;  0; 0; 0; 0;  1]%Q.

(** ** Predicates used in the further properties *)

(** The row [fill_rows] builds for a Pokémon whose base values are not
    zero. *)
Definition pokemon_row (pkmn : Pokemon) : list Q :=
  (get_hp pkmn / get_base_hp pkmn)%Q
  :: ((fun move => (get_pp move / get_base_pp move)%Q)
        <$> MoveBank.get_as_list (get_move_bank pkmn))
  ++ replicate (POKEMON_MOVE_LIMIT - move_bank_size pkmn) EPSILON.

(** The row [fill_empty] appends. *)
Definition empty_row : list Q :=
  [EPSILON; EPSILON; EPSILON; EPSILON; EPSILON].

(** The rows handed to [np.array] have one length: the move banks, cut
    off below at POKEMON_MOVE_LIMIT, have one size, and it is
    POKEMON_MOVE_LIMIT itself if a party leaves a slot to [fill_empty]. *)
Definition rows_of_one_width (player other_player : Player) : Prop :=
  ∃ c : nat,
    Forall (fun pkmn => max POKEMON_MOVE_LIMIT (move_bank_size pkmn) = c)
           (party_list player ++ party_list other_player)
    ∧ ((length (party_list player) < POKEMON_PARTY_LIMIT
        ∨ length (party_list other_player) < POKEMON_PARTY_LIMIT)%nat →
       c = POKEMON_MOVE_LIMIT).

(** A vector of [n] entries has no entry at the start of the block of
    the starting Pokémon; this includes a starting Pokémon that is not
    in the party. *)
Definition no_move_block (player : Player) (n : nat) : Prop :=
  ∀ i, located_at player i →
       (n ≤ POKEMON_PARTY_LIMIT + i * POKEMON_MOVE_LIMIT)%nat.

(** Current values between zero and a positive base value. *)
Definition stats_in_range (pkmn : Pokemon) : Prop :=
  (0 <= get_hp pkmn <= get_base_hp pkmn)%Q ∧ (0 < get_base_hp pkmn)%Q
  ∧ Forall (fun move => (0 <= get_pp move <= get_base_pp move)%Q
                        ∧ (0 < get_base_pp move)%Q)
           (MoveBank.get_as_list (get_move_bank pkmn)).

(** [player] with the as-is order of its party replaced. *)
Definition with_party_list (player : Player) (l : list Pokemon) : Player :=
  mkPlayer (Party.mk l (Party.get_starting (get_party player))).

(** An index a Python list of [n] items accepts. *)
Definition slot_in_range (n : nat) (k : Z) : Prop :=
  (- Z.of_nat n ≤ k < Z.of_nat n)%Z.

(** The slot of [child] resolves in [childrenMap] to an index that the
    list it is written to accepts: the as-is list of [n] switch
    probabilities, or a block of POKEMON_MOVE_LIMIT move probabilities. *)
Definition child_resolves (node : MonteCarloNode) (n : nat)
    (child : MonteCarloNode) : Prop :=
  ∃ k, first_key node child (action_type child) = Ok k
       ∧ slot_in_range (match action_type child with
                        | SWITCH => n
                        | ATTACK => POKEMON_MOVE_LIMIT
                        end) k.

(** Some ATTACK child of [node] belongs to [pkmn]. *)
Definition has_attack_child (node : MonteCarloNode) (pkmn : Pokemon) : Prop :=
  ∃ child, child ∈ children node ∧ action_type child = ATTACK
           ∧ detokenize_child child = get_id pkmn.

(** The inputs on which [make_actual_output_list] returns. *)
Definition encodable (player : Player) (node : MonteCarloNode) : Prop :=
  (children node = [] ∨ ¬ (outcome node == 0)%Q)
  ∧ Forall (child_resolves node (length (party_list player))) (children node)
  ∧ Forall (has_attack_child node) (party_list player).

(** One SWITCH child passes the first loop. *)
Definition switch_step_ok (node : MonteCarloNode) (n : nat)
    (child : MonteCarloNode) : Prop :=
  action_type child = SWITCH →
  ¬ (outcome node == 0)%Q ∧ child_resolves node n child.

(** One ATTACK child passes the second loop. *)
Definition attack_step_ok (node : MonteCarloNode) (child : MonteCarloNode)
  : Prop :=
  action_type child = ATTACK →
  ¬ (outcome node == 0)%Q ∧ child_resolves node 0 child.

(** The Pokémon and the move slot an ATTACK child of [node] stands for,
    as the second loop of [make_actual_output_list] resolves them. *)
Definition attack_target (node child : MonteCarloNode) : option (Z * Z) :=
  match action_type child with
  | ATTACK =>
      match first_key node child ATTACK with
      | Ok k => Some (detokenize_child child, k)
      | Err _ => None
      end
  | SWITCH => None
  end.

(** The move slots of the ATTACK children resolve inside a block, and no
    two children stand for the same move of the same Pokémon. *)
Definition attack_children_ok (node : MonteCarloNode)
    (cs : list MonteCarloNode) : Prop :=
  Forall (fun child => action_type child = ATTACK →
            ∃ k : nat, first_key node child ATTACK = Ok (Z.of_nat k)
                       ∧ (k < POKEMON_MOVE_LIMIT)%nat) cs
  ∧ NoDup (omap (attack_target node) cs).

(** A root with two switches to as-is slot 1. *)
Definition twice_root : MonteCarloNode :=
  mkNode SWITCH "root" 4 0
         [leaf SWITCH "s1" 1 0; leaf SWITCH "t1" 2 0]
         (<["s1" := keys_of SWITCH 1]> (<["t1" := keys_of SWITCH 1]> ∅)).

(** * Properties *)

(** ** The embedding on small inputs *)

Example reference_configuration :
  INPUT_SHAPE = (1 + POKEMON_MOVE_LIMIT, 2 * POKEMON_PARTY_LIMIT)%nat
  ∧ OUTPUT_SIZE = (POKEMON_PARTY_LIMIT
                   + POKEMON_PARTY_LIMIT * POKEMON_MOVE_LIMIT + 1)%nat.
Proof. split; reflexivity. Qed.

Example sorted_party_by_id :
  get_id <$> Party.get_sorted_list (get_party duo_player) = [5; 10]%Z.
Proof. reflexivity. Qed.

Example input_matrix_rows :
  (fun mat => take 3 mat) <$> make_input_matrix duo_player solo_player
  = Ok [ [45 / 45; 10 / 35; EPSILON; EPSILON; EPSILON];
         [20 / 35; 10 / 35; EPSILON; EPSILON; EPSILON];
         [EPSILON; EPSILON; EPSILON; EPSILON; EPSILON] ]%Q.
Proof. vm_compute. reflexivity. Qed.

Example target_vector_duo :
  make_actual_output_list duo_player duo_root
  = Ok (NdArray ([1 / 4; EPSILON; EPSILON; EPSILON; EPSILON; EPSILON]
                 ++ [2 / 4; EPSILON; EPSILON; EPSILON]
                 ++ [3 / 4; EPSILON; EPSILON; EPSILON] ++ [4])%Q).
Proof. vm_compute. reflexivity. Qed.

Example target_vector_empty_party :
  make_actual_output_list empty_player bare_root
  = Ok (NdArray (replicate 6 EPSILON ++ [1])%Q).
Proof. vm_compute. reflexivity. Qed.

Example decode_attack :
  take_turn <$> predict_move (fun _ => PyList attack_output)
                  solo_player duo_player
  = Ok [do_move tackle].
Proof. vm_compute. reflexivity. Qed.

Example decode_tie_attacks :
  take_turn <$> predict_move (fun _ => PyList tie_output)
                  solo_player duo_player
  = Ok [do_move tackle].
Proof. vm_compute. reflexivity. Qed.

Example decode_switch :
  take_turn <$> predict_move (fun _ => PyList switch_output)
                  solo_player duo_player
  = Ok [switch_pokemon 2].
Proof. vm_compute. reflexivity. Qed.

Example decode_ndarray :
  predict_move (fun _ => NdArray switch_output) solo_player duo_player
  = Err AttributeError.
Proof. vm_compute. reflexivity. Qed.

Example ragged_matrix :
  np_array [[1; 2]; [3]]%Q = Err ValueError.
Proof. reflexivity. Qed.

Example ragged_input_matrix :
  make_input_matrix hoarder_player solo_player = Err ValueError
  ∧ length <$> make_input_matrix hoarders_player hoarders_player
    = Ok 12%nat.
Proof. split; vm_compute; reflexivity. Qed.

(** ** The error monad *)

Lemma bind_Ok {A B} (m : result A) (f : A → result B) (b : B) :
  m ≫= f = Ok b ↔ ∃ a, m = Ok a ∧ f a = Ok b.
Proof.
  destruct m as [a|e]; simpl.
  - split; [eauto | intros (a' & [= <-] & ?); done].
  - split; [done | intros (a' & [=] & _)].
Qed.

Lemma mapM_Ok {A B} (f : A → result B) (l : list A) (k : list B) :
  mapM f l = Ok k ↔ Forall2 (fun x y => f x = Ok y) l k.
Proof.
  revert k. induction l as [|x l IH]; intros k; simpl.
  - split; [intros [= <-]; constructor | by inversion 1].
  - rewrite bind_Ok. split.
    + intros (y & Hy & Hk). apply bind_Ok in Hk as (k' & Hk' & [= <-]).
      constructor; [done | by apply IH].
    + inversion 1 as [|? y ? k' Hy Hk']; subst.
      exists y. split; [done|]. apply IH in Hk'. by rewrite Hk'.
Qed.

Lemma mapM_is_Ok {A B} (f : A → result B) (l : list A) :
  Forall (fun x => ∃ y, f x = Ok y) l → ∃ k, mapM f l = Ok k.
Proof.
  induction 1 as [|x l [y Hy] _ [k Hk]]; simpl.
  - by exists [].
  - exists (y :: k). by rewrite Hy, Hk.
Qed.

Lemma py_div_Ok (a b q : Q) :
  py_div a b = Ok q ↔ ¬ (b == 0)%Q ∧ q = (a / b)%Q.
Proof.
  unfold py_div. destruct (Qeq_bool b 0) eqn:E.
  - apply Qeq_bool_iff in E. split; [done | intros [? _]; done].
  - apply Qeq_bool_neq in E. split; [intros [= <-]; done | intros [_ ->]; done].
Qed.

Lemma py_div_zero (a b : Q) : (b == 0)%Q → py_div a b = Err ZeroDivisionError.
Proof. intros E. unfold py_div. apply Qeq_bool_iff in E. by rewrite E. Qed.

Lemma Qdiv_nonzero (a b : Q) :
  ¬ (a == 0)%Q → ¬ (b == 0)%Q → ¬ (a / b == 0)%Q.
Proof.
  intros Ha Hb E. apply Ha.
  rewrite <- (Qmult_div_r a b Hb), E. ring.
Qed.

Lemma EPSILON_nonzero : ¬ (EPSILON == 0)%Q.
Proof. unfold EPSILON, Qeq. simpl. lia. Qed.

(** ** The stable sort *)

Lemma insert_by_key_Permutation {A} (key : A → Z) x (l : list A) :
  insert_by_key key x l ≡ₚ x :: l.
Proof.
  induction l as [|y l IH]; simpl; [done|].
  destruct (key x <=? key y)%Z; [done|].
  rewrite IH. apply Permutation_swap.
Qed.

Lemma sort_by_key_Permutation {A} (key : A → Z) (l : list A) :
  sort_by_key key l ≡ₚ l.
Proof.
  induction l as [|x l IH]; simpl; [done|].
  unfold sort_by_key in *. simpl.
  by rewrite insert_by_key_Permutation, IH.
Qed.

Lemma length_sort_by_key {A} (key : A → Z) (l : list A) :
  length (sort_by_key key l) = length l.
Proof. by rewrite sort_by_key_Permutation. Qed.

(** ** State encoder *)

Lemma fill_row_Ok (pkmn : Pokemon) :
  base_stats_nonzero pkmn →
  ∃ row, fill_row pkmn = Ok row
         ∧ length row = (1 + max POKEMON_MOVE_LIMIT (move_bank_size pkmn))%nat.
Proof.
  intros [Hhp Hpp]. unfold fill_row, move_bank_size.
  set (move_list := MoveBank.get_as_list (get_move_bank pkmn)) in *.
  destruct (mapM_is_Ok (fun move => py_div (get_pp move) (get_base_pp move))
              move_list) as [comps Hcomps].
  { eapply Forall_impl; [exact Hpp|]. intros move Hm. eexists.
    apply py_div_Ok. eauto. }
  eexists. split.
  - apply bind_Ok. eexists. split; [apply py_div_Ok; eauto|].
    rewrite Hcomps. simpl. reflexivity.
  - apply mapM_Ok, Forall2_length in Hcomps.
    simpl. rewrite length_app, length_replicate. lia.
Qed.

Lemma fill_rows_Ok (mat : list (list Q)) (pokemon_list : list Pokemon) :
  Forall base_stats_nonzero pokemon_list →
  Forall (fun pkmn => (move_bank_size pkmn ≤ POKEMON_MOVE_LIMIT)%nat)
         pokemon_list →
  ∃ rows, fill_rows mat pokemon_list = Ok (mat ++ rows)
          ∧ length rows = length pokemon_list
          ∧ Forall (fun row => length row = (1 + POKEMON_MOVE_LIMIT)%nat) rows.
Proof.
  intros Hbase Hsize. unfold fill_rows.
  assert (∃ rows, mapM fill_row pokemon_list = Ok rows
    ∧ Forall (fun row => length row = (1 + POKEMON_MOVE_LIMIT)%nat) rows)
    as (rows & Hrows & Hshape).
  { induction pokemon_list as [|pkmn l IH]; simpl.
    - by exists [].
    - inversion_clear Hbase as [|?? Hb Hbl]. inversion_clear Hsize as [|?? Hs Hsl].
      destruct (fill_row_Ok pkmn Hb) as (row & Hrow & Hlen).
      destruct (IH Hbl Hsl) as (rows & Hrows & Hshape).
      exists (row :: rows). rewrite Hrow, Hrows. split; [done|].
      constructor; [lia | done]. }
  exists rows. rewrite Hrows. split; [done|]. split; [|done].
  apply mapM_Ok, Forall2_length in Hrows. done.
Qed.

Lemma fill_empty_shape (mat : list (list Q)) (num : nat) :
  Forall (fun row => length row = (1 + POKEMON_MOVE_LIMIT)%nat) mat →
  Forall (fun row => length row = (1 + POKEMON_MOVE_LIMIT)%nat)
         (fill_empty mat num).
Proof.
  intros H. unfold fill_empty. apply Forall_app. split; [done|].
  by apply Forall_replicate.
Qed.

Lemma np_array_inv (mat : list (list Q)) :
  (np_array mat = Ok mat ∧ ∃ c, Forall (fun row => length row = c) mat)
  ∨ (np_array mat = Err ValueError
     ∧ ¬ ∃ c, Forall (fun row => length row = c) mat).
Proof.
  destruct mat as [|row rest]; [left; split; [done | by exists 0%nat]|].
  cbn [np_array].
  destruct (forallb (fun r => length r =? length row)%nat rest) eqn:E.
  - left. split; [done|]. exists (length row). constructor; [done|].
    apply Forall_forall. intros r Hr. rewrite forallb_forall in E.
    apply Nat.eqb_eq, E. by apply list_elem_of_In.
  - right. split; [done|]. intros [c Hc].
    apply Forall_cons in Hc as [<- Hc].
    assert (forallb (fun r => length r =? length row)%nat rest = true);
      [|congruence].
    apply forallb_forall. intros r Hr%list_elem_of_In.
    rewrite Forall_forall in Hc. by apply Nat.eqb_eq, Hc.
Qed.

Lemma np_array_uniform (c : nat) (mat : list (list Q)) :
  Forall (fun row => length row = c) mat → np_array mat = Ok mat.
Proof.
  intros H. destruct (np_array_inv mat) as [[E _]|[_ Hn]]; [done|].
  destruct Hn. eauto.
Qed.

Lemma np_array_Ok (mat mat' : list (list Q)) :
  np_array mat = Ok mat' →
  mat' = mat ∧ ∃ c, Forall (fun row => length row = c) mat.
Proof.
  destruct (np_array_inv mat) as [[-> Hc]|[-> _]]; [|done].
  by intros [= <-].
Qed.

Lemma sorted_list_Forall (P : Pokemon → Prop) (player : Player) :
  Forall P (party_list player) →
  Forall P (Party.get_sorted_list (get_party player)).
Proof.
  unfold Party.get_sorted_list, party_list.
  by rewrite sort_by_key_Permutation.
Qed.

Lemma length_sorted_list (player : Player) :
  length (Party.get_sorted_list (get_party player))
  = length (party_list player).
Proof. apply length_sort_by_key. Qed.

(** C3: for parties of at most POKEMON_PARTY_LIMIT Pokémon with move
    banks of at most POKEMON_MOVE_LIMIT moves (and base stats that are not
    zero, so that the ratios exist), [make_input_matrix] returns a matrix
    of exactly 2 × POKEMON_PARTY_LIMIT rows, each of exactly
    1 + POKEMON_MOVE_LIMIT entries. *)
Theorem make_input_matrix_shape (player other_player : Player) :
  (length (party_list player) ≤ POKEMON_PARTY_LIMIT)%nat →
  (length (party_list other_player) ≤ POKEMON_PARTY_LIMIT)%nat →
  Forall (fun pkmn => (move_bank_size pkmn ≤ POKEMON_MOVE_LIMIT)%nat)
         (party_list player ++ party_list other_player) →
  Forall base_stats_nonzero (party_list player ++ party_list other_player) →
  ∃ mat, make_input_matrix player other_player = Ok mat
         ∧ length mat = (2 * POKEMON_PARTY_LIMIT)%nat
         ∧ Forall (fun row => length row = (1 + POKEMON_MOVE_LIMIT)%nat) mat.
Proof.
  intros Hn1 Hn2 [Hs1 Hs2]%Forall_app [Hb1 Hb2]%Forall_app.
  unfold make_input_matrix.
  apply sorted_list_Forall in Hs1, Hs2, Hb1, Hb2.
  rewrite <- length_sorted_list in Hn1, Hn2.
  destruct (fill_rows_Ok [] _ Hb1 Hs1) as (rows1 & -> & Hl1 & Hsh1).
  simpl.
  destruct (fill_rows_Ok
              (fill_empty rows1
                 (POKEMON_PARTY_LIMIT
                  - length (Party.get_sorted_list (get_party player))))
              _ Hb2 Hs2) as (rows2 & -> & Hl2 & Hsh2).
  cbn [mbind result_bind]. eexists. split; [|split].
  - apply (np_array_uniform (1 + POKEMON_MOVE_LIMIT)).
    apply fill_empty_shape, Forall_app. split; [|done].
    by apply fill_empty_shape.
  - unfold fill_empty. rewrite !length_app, !length_replicate. simpl.
    unfold POKEMON_PARTY_LIMIT in *. lia.
  - apply fill_empty_shape, Forall_app. split; [|done].
    by apply fill_empty_shape.
Qed.

Lemma fill_row_nonzero (pkmn : Pokemon) (row : list Q) :
  stats_nonzero pkmn → fill_row pkmn = Ok row →
  Forall (fun x => ¬ (x == 0)%Q) row.
Proof.
  intros [Hhp Hpp] H. unfold fill_row in H.
  apply bind_Ok in H as (hp_comp & [Hb ->]%py_div_Ok & H).
  apply bind_Ok in H as (comps & Hcomps%mapM_Ok & [= <-]).
  constructor; [by apply Qdiv_nonzero|].
  apply Forall_app. split; [|apply Forall_replicate, EPSILON_nonzero].
  induction Hcomps as [|move q l k [Hbp ->]%py_div_Ok _ IH]; [done|].
  inversion_clear Hpp. constructor; [by apply Qdiv_nonzero | by apply IH].
Qed.

Lemma fill_rows_nonzero (mat mat' : list (list Q)) (l : list Pokemon) :
  Forall stats_nonzero l →
  Forall (Forall (fun x => ¬ (x == 0)%Q)) mat →
  fill_rows mat l = Ok mat' →
  Forall (Forall (fun x => ¬ (x == 0)%Q)) mat'.
Proof.
  intros Hl Hmat H. unfold fill_rows in H.
  apply bind_Ok in H as (rows & Hrows%mapM_Ok & [= <-]).
  apply Forall_app. split; [done|].
  induction Hrows as [|pkmn row l k Hrow _ IH]; [done|].
  inversion_clear Hl. constructor; [by eapply fill_row_nonzero | by apply IH].
Qed.

Lemma fill_empty_nonzero (mat : list (list Q)) (num : nat) :
  Forall (Forall (fun x => ¬ (x == 0)%Q)) mat →
  Forall (Forall (fun x => ¬ (x == 0)%Q)) (fill_empty mat num).
Proof.
  intros H. apply Forall_app. split; [done|].
  apply Forall_replicate. repeat constructor; apply EPSILON_nonzero.
Qed.

(** C4, amended: when no current HP and no current PP of either party is
    zero, no entry of the matrix returned by [make_input_matrix] is zero;
    the padding entries are EPSILON, the others the plain ratios. *)
Theorem make_input_matrix_nonzero (player other_player : Player)
    (mat : list (list Q)) :
  Forall stats_nonzero (party_list player ++ party_list other_player) →
  make_input_matrix player other_player = Ok mat →
  Forall (Forall (fun x => ¬ (x == 0)%Q)) mat.
Proof.
  intros [H1 H2]%Forall_app H. unfold make_input_matrix in H.
  apply sorted_list_Forall in H1, H2.
  apply bind_Ok in H as (mat1 & Hmat1 & H).
  apply bind_Ok in H as (mat2 & Hmat2 & [-> _]%np_array_Ok).
  apply fill_empty_nonzero.
  eapply fill_rows_nonzero; [exact H2 | | exact Hmat2].
  apply fill_empty_nonzero.
  eapply fill_rows_nonzero; [exact H1 | | exact Hmat1]. constructor.
Qed.

(** C4 as stated fails: the HP ratio of a fainted Pokémon is an entry
    that is exactly zero. *)
Lemma make_input_matrix_zero_entry :
  ∃ mat row x, make_input_matrix fainted_player solo_player = Ok mat
               ∧ mat !! 0%nat = Some row ∧ row !! 0%nat = Some x
               ∧ (x == 0)%Q.
Proof.
  eexists _, _, _. split; [vm_compute; reflexivity|].
  split; [reflexivity|]. split; reflexivity.
Qed.

Lemma make_input_matrix_nonzero_witness :
  ∃ mat, make_input_matrix solo_player duo_player = Ok mat
         ∧ Forall (Forall (fun x => ¬ (x == 0)%Q)) mat.
Proof.
  eexists. split; [vm_compute; reflexivity|].
  apply (make_input_matrix_nonzero solo_player duo_player);
    [|vm_compute; reflexivity].
  repeat constructor; by vm_compute.
Defined.

Lemma make_input_matrix_shape_witness :
  ∃ mat, make_input_matrix solo_player duo_player = Ok mat
         ∧ length mat = 12%nat
         ∧ Forall (fun row => length row = 5%nat) mat.
Proof.
  apply (make_input_matrix_shape solo_player duo_player).
  - vm_compute. lia.
  - vm_compute. lia.
  - repeat constructor; vm_compute; lia.
  - repeat constructor; by vm_compute.
Defined.

(** ** Target encoder: lengths *)

Lemma py_setitem_Ok {A} (l l' : list A) (i : Z) (v : A) :
  py_setitem l i v = Ok l' → length l' = length l.
Proof.
  unfold py_setitem. repeat case_decide; intros [= <-];
    by rewrite length_insert.
Qed.

Lemma py_setitem_nat {A} (l : list A) (i : nat) (v : A) :
  (i < length l)%nat → py_setitem l (Z.of_nat i) v = Ok (<[i := v]> l).
Proof.
  intros Hi. unfold py_setitem. rewrite decide_True by lia.
  by rewrite Nat2Z.id.
Qed.

Lemma switch_loop_length node cs (probs probs' : list Q) :
  switch_loop node cs probs = Ok probs' → length probs' = length probs.
Proof.
  revert probs. induction cs as [|child cs IH]; intros probs; simpl.
  - by intros [= <-].
  - destruct (action_type child); [apply IH|].
    intros (k & _ & H)%bind_Ok. apply bind_Ok in H as (q & _ & H).
    apply bind_Ok in H as (probs1 & Hset%py_setitem_Ok & H).
    apply IH in H. congruence.
Qed.

Lemma make_switch_probs_length player node (seg : list Q) :
  make_switch_probs player node = Ok seg →
  length seg = max POKEMON_PARTY_LIMIT (length (party_list player)).
Proof.
  unfold make_switch_probs. fold (party_list player).
  intros (probs & Hlen%switch_loop_length & [= <-])%bind_Ok.
  rewrite length_replicate in Hlen.
  rewrite length_app, length_fmap, length_sort_by_key, length_zip,
    length_replicate. lia.
Qed.

(** Every block of the dictionary built by the second loop has
    POKEMON_MOVE_LIMIT entries. *)
Lemma move_loop_blocks node cs (m m' : gmap Z (list Q)) :
  map_Forall (fun _ block => length block = POKEMON_MOVE_LIMIT) m →
  move_loop node cs m = Ok m' →
  map_Forall (fun _ block => length block = POKEMON_MOVE_LIMIT) m'.
Proof.
  revert m. induction cs as [|child cs IH]; intros m Hm; simpl.
  - by intros [= <-].
  - destruct (action_type child); [|by apply IH].
    intros (k & _ & H)%bind_Ok. apply bind_Ok in H as (q & _ & H).
    apply bind_Ok in H as (block & Hset%py_setitem_Ok & H).
    apply IH in H; [done|]. apply map_Forall_insert_2; [|done].
    rewrite Hset. destruct (m !! detokenize_child child) as [b|] eqn:E; simpl.
    + by apply Hm in E.
    + reflexivity.
Qed.

Lemma make_move_probs_length player node (move_probs : list Q) :
  make_move_probs player node = Ok move_probs →
  length move_probs = (length (party_list player) * POKEMON_MOVE_LIMIT)%nat.
Proof.
  unfold make_move_probs.
  intros (m & Hm%move_loop_blocks & H)%bind_Ok; [|apply map_Forall_empty].
  apply bind_Ok in H as (blocks & Hblocks%mapM_Ok & [= <-]).
  rewrite <- length_sorted_list.
  induction Hblocks as [|pkmn block l k Hblock _ IH]; [done|].
  unfold move_block in Hblock.
  destruct (m !! get_id pkmn) as [b|] eqn:E; [|done].
  injection Hblock as <-. apply Hm in E.
  rewrite concat_cons, length_app, IH, E, length_cons. lia.
Qed.

(** The length of a returned vector follows the live party size: the
    switch segment is padded, the move segment is not. *)
Lemma make_actual_output_list_length player node (v : list Q) :
  make_actual_output_list player node = Ok (NdArray v) →
  length v = (max POKEMON_PARTY_LIMIT (length (party_list player))
              + length (party_list player) * POKEMON_MOVE_LIMIT + 1)%nat.
Proof.
  unfold make_actual_output_list.
  intros (seg & Hseg%make_switch_probs_length & H)%bind_Ok.
  apply bind_Ok in H as (moves & Hmoves%make_move_probs_length & [= <-]).
  rewrite !length_app. simpl. lia.
Qed.

(** C1: on a party of one Pokémon whose only root child is one of its
    moves, [make_actual_output_list] returns a vector of 11 entries, not
    OUTPUT_SIZE = 31. *)
Theorem make_actual_output_list_short_party :
  (length (party_list solo_player) ≤ POKEMON_PARTY_LIMIT)%nat
  ∧ ∃ v, make_actual_output_list solo_player attack_root = Ok (NdArray v)
         ∧ length v = 11%nat
         ∧ length v ≠ (POKEMON_PARTY_LIMIT
                       + POKEMON_PARTY_LIMIT * POKEMON_MOVE_LIMIT + 1)%nat
         ∧ length v ≠ OUTPUT_SIZE.
Proof.
  split; [vm_compute; lia|].
  eexists. split; [vm_compute; reflexivity|]. by vm_compute.
Qed.

(** C5: on a party of two Pokémon where only Pokémon 10 has an ATTACK
    child, the lookup of the other Pokémon's block raises KeyError. *)
Theorem make_actual_output_list_missing_block :
  make_actual_output_list duo_player attack_root = Err KeyError
  ∧ make_move_probs duo_player attack_root = Err KeyError.
Proof. split; vm_compute; reflexivity. Qed.

(** ** Target encoder: a root outcome of zero *)

Lemma switch_loop_attacks node cs (probs : list Q) :
  Forall (fun child => action_type child = ATTACK) cs →
  switch_loop node cs probs = Ok probs.
Proof.
  induction 1 as [|child cs Hty _ IH]; simpl; [done|]. by rewrite Hty.
Qed.

Lemma switch_loop_zero node cs (probs : list Q) :
  (outcome node == 0)%Q →
  Forall (fun child => ∃ k, first_key node child (action_type child) = Ok k)
         cs →
  Exists (fun child => action_type child = SWITCH) cs →
  switch_loop node cs probs = Err ZeroDivisionError.
Proof.
  intros Hz Hkeys. induction Hkeys as [|child cs [k Hk] _ IH]; intros Hex.
  - by apply Exists_nil in Hex.
  - simpl. destruct (action_type child) eqn:Hty.
    + apply IH. apply Exists_cons in Hex as [Hex|Hex]; [congruence | done].
    + rewrite Hk. simpl. by rewrite (py_div_zero _ _ Hz).
Qed.

Lemma move_loop_zero node cs (m : gmap Z (list Q)) :
  (outcome node == 0)%Q →
  Forall (fun child => ∃ k, first_key node child (action_type child) = Ok k)
         cs →
  Exists (fun child => action_type child = ATTACK) cs →
  move_loop node cs m = Err ZeroDivisionError.
Proof.
  intros Hz Hkeys. induction Hkeys as [|child cs [k Hk] _ IH]; intros Hex.
  - by apply Exists_nil in Hex.
  - simpl. destruct (action_type child) eqn:Hty.
    + rewrite Hk. simpl. by rewrite (py_div_zero _ _ Hz).
    + apply IH. apply Exists_cons in Hex as [Hex|Hex]; [congruence | done].
Qed.

(** C6, amended: a root outcome of zero is not guarded.  When the root
    has at least one child, and the slot of every child resolves, the
    division [child.outcome / node.outcome] raises ZeroDivisionError to
    the caller. *)
Theorem make_actual_output_list_zero_outcome player node :
  (outcome node == 0)%Q →
  children node ≠ [] →
  Forall (fun child => ∃ k, first_key node child (action_type child) = Ok k)
         (children node) →
  make_actual_output_list player node = Err ZeroDivisionError.
Proof.
  intros Hz Hne Hkeys. unfold make_actual_output_list.
  destruct (decide (Exists (fun child => action_type child = SWITCH)
                           (children node))) as [Hsw|Hsw].
  - unfold make_switch_probs.
    by rewrite (switch_loop_zero _ _ _ Hz Hkeys Hsw).
  - apply not_Exists_Forall in Hsw; [|intros child; apply _].
    assert (Forall (fun child => action_type child = ATTACK) (children node))
      as Hatt.
    { eapply Forall_impl; [exact Hsw|]. simpl. intros child.
      by destruct (action_type child). }
    unfold make_switch_probs. rewrite (switch_loop_attacks _ _ _ Hatt). simpl.
    unfold make_move_probs. rewrite (move_loop_zero _ _ _ Hz Hkeys); [done|].
    destruct (children node) as [|child cs]; [done|].
    inversion_clear Hatt. by apply Exists_cons_hd.
Qed.

Lemma make_actual_output_list_zero_outcome_witness :
  make_actual_output_list solo_player zero_root = Err ZeroDivisionError.
Proof.
  apply make_actual_output_list_zero_outcome.
  - reflexivity.
  - discriminate.
  - repeat constructor. exists 0%Z. reflexivity.
Defined.

(** C6 as stated fails: a root of outcome zero with a child raises, and
    no vector is returned. *)
Lemma make_actual_output_list_zero_root_raises :
  (outcome zero_root == 0)%Q
  ∧ make_actual_output_list (solo_player) zero_root
    = Err ZeroDivisionError
  ∧ ¬ ∃ v, make_actual_output_list (solo_player)
             zero_root = Ok v.
Proof.
  split; [reflexivity|]. split; [vm_compute; reflexivity|].
  intros [v Hv]. vm_compute in Hv. discriminate.
Qed.

(** ** Target encoder: the switch segment *)

Lemma insert_by_key_fmap {A B} (f : A → B) (key : B → Z) x (l : list A) :
  f <$> insert_by_key (fun v => key (f v)) x l
  = insert_by_key key (f x) (f <$> l).
Proof.
  induction l as [|y l IH]; csimpl; [done|].
  destruct (key (f x) <=? key (f y))%Z; csimpl; [done|]. by rewrite IH.
Qed.

(** Sorting by a key read through [f] commutes with mapping [f]. *)
Lemma sort_by_key_fmap {A B} (f : A → B) (key : B → Z) (l : list A) :
  f <$> sort_by_key (fun v => key (f v)) l = sort_by_key key (f <$> l).
Proof.
  unfold sort_by_key. induction l as [|x l IH]; csimpl; [done|].
  by rewrite insert_by_key_fmap, IH.
Qed.

Lemma switch_target_Some node child (k : Z) :
  switch_target node child = Some k ↔
  action_type child = SWITCH ∧ first_key node child SWITCH = Ok k.
Proof.
  unfold switch_target. destruct (action_type child).
  - split; [done | intros [[=] _]].
  - destruct (first_key node child SWITCH) as [k'|e].
    + split; [intros [= ->]; done | intros [_ [= ->]]; done].
    + split; [done | intros [_ [=]]].
Qed.

Lemma switch_children_ok_Permutation node cs cs' n :
  cs' ≡ₚ cs → switch_children_ok node cs n → switch_children_ok node cs' n.
Proof. intros Hp [H1 H2]. split; by rewrite Hp. Qed.

Section first_loop.
Context (node : MonteCarloNode) (Hnz : ¬ (outcome node == 0)%Q).

(** What the first loop leaves in the as-is list. *)
Lemma switch_loop_spec cs (probs : list Q) :
  switch_children_ok node cs (length probs) →
  ∃ probs',
    switch_loop node cs probs = Ok probs'
    ∧ (∀ child (i : nat),
         child ∈ cs → switch_target node child = Some (Z.of_nat i) →
         probs' !! i = Some (outcome child / outcome node)%Q)
    ∧ (∀ i : nat,
         (∀ child, child ∈ cs → switch_target node child ≠ Some (Z.of_nat i)) →
         probs' !! i = probs !! i).
Proof.
  revert probs. induction cs as [|c cs IH]; intros probs [Hslots Hdup].
  - exists probs. split; [done|]. split; [|done].
    intros child i Hin. by apply elem_of_nil in Hin.
  - apply Forall_cons in Hslots as [Hc Hslots]. simpl in Hdup |- *.
    destruct (action_type c) eqn:Hty.
    + assert (switch_target node c = None) as Hnone
        by (unfold switch_target; by rewrite Hty).
      rewrite Hnone in Hdup.
      destruct (IH probs (conj Hslots Hdup)) as (probs' & Hloop & Hset & Hkeep).
      exists probs'. split; [done|]. split.
      * intros child i [->|Hin]%elem_of_cons Ht; [congruence | eauto].
      * intros i Hi. apply Hkeep. intros child Hin. apply Hi. by right.
    + destruct (Hc eq_refl) as (i0 & Ht0 & Hi0). rewrite Ht0 in Hdup.
      apply NoDup_cons in Hdup as [Hfresh Hdup].
      apply switch_target_Some in Ht0 as Hk0. destruct Hk0 as [_ Hk0].
      rewrite Hk0. simpl.
      assert (py_div (outcome c) (outcome node)
              = Ok (outcome c / outcome node)%Q) as ->
        by (by apply py_div_Ok).
      simpl. rewrite (py_setitem_nat _ _ _ Hi0). simpl.
      destruct (IH (<[i0 := (outcome c / outcome node)%Q]> probs))
        as (probs' & Hloop & Hset & Hkeep).
      { split; [by rewrite length_insert | done]. }
      assert (probs' !! i0 = Some (outcome c / outcome node)%Q) as Hi0'.
      { rewrite Hkeep; [by apply list_lookup_insert_eq|].
        intros child Hin Ht. apply Hfresh, list_elem_of_omap. eauto. }
      exists probs'. split; [done|]. split.
      * intros child i [->|Hin]%elem_of_cons Ht; [|eauto].
        rewrite Ht0 in Ht. injection Ht as Ht. apply Nat2Z.inj in Ht.
        by subst.
      * intros i Hi. rewrite Hkeep.
        -- apply list_lookup_insert_ne. intros ->.
           by apply (Hi c); [left|].
        -- intros child Hin. apply Hi. by right.
Qed.

(** The as-is list does not depend on the order of the children. *)
Lemma switch_loop_Permutation cs cs' (probs : list Q) :
  switch_children_ok node cs (length probs) →
  cs' ≡ₚ cs →
  switch_loop node cs' probs = switch_loop node cs probs.
Proof.
  intros Hok Hp.
  destruct (switch_loop_spec cs probs Hok) as (l & Hl & Hset & Hkeep).
  destruct (switch_loop_spec cs' probs
              (switch_children_ok_Permutation _ _ _ _ Hp Hok))
    as (l' & Hl' & Hset' & Hkeep').
  rewrite Hl, Hl'. f_equal. apply list_eq. intros i.
  destruct (decide (Exists (fun child =>
              switch_target node child = Some (Z.of_nat i)) cs))
    as [Hex|Hex].
  - apply Exists_exists in Hex as (child & Hin & Ht).
    rewrite (Hset child i Hin Ht). apply Hset'; [by rewrite Hp | done].
  - rewrite Hkeep, Hkeep'; [done| |].
    + intros child Hin Ht. apply Hex, Exists_exists. exists child.
      split; [by rewrite <- Hp | done].
    + intros child Hin Ht. apply Hex, Exists_exists. eauto.
Qed.

End first_loop.

Lemma switch_loop_with_children node cs0 cs (probs : list Q) :
  switch_loop (with_children node cs0) cs probs = switch_loop node cs probs.
Proof.
  revert probs. induction cs as [|c cs IH]; intros probs; simpl; [done|].
  destruct (action_type c); [done|].
  unfold first_key at 1. simpl. fold (first_key node c SWITCH).
  destruct (first_key node c SWITCH); simpl; [|done].
  destruct (py_div (outcome c) (outcome node)); simpl; [|done].
  destruct (py_setitem probs a a0); simpl; [|done]. apply IH.
Qed.

(** Where an as-is entry lands after the sort by identifier. *)
Lemma sorted_tuple_lookup (probs : list Q) (party : list Pokemon)
    (i j : nat) (pkmn : Pokemon) :
  length probs = length party →
  NoDup party →
  party !! i = Some pkmn →
  sort_by_key get_id party !! j = Some pkmn →
  (sort_by_key (fun v => get_id v.2) (zip probs party)).*1 !! j = probs !! i.
Proof.
  intros Hlen Hnd Hi Hj.
  set (tuple := sort_by_key (fun v => get_id v.2) (zip probs party)).
  assert (tuple.*2 = sort_by_key get_id party) as Hsnd.
  { unfold tuple.
    rewrite (sort_by_key_fmap snd get_id), snd_zip by lia. done. }
  rewrite <- Hsnd, list_lookup_fmap in Hj. rewrite list_lookup_fmap.
  destruct (tuple !! j) as [[q p]|] eqn:Hq; [|done].
  simpl in Hj |- *. injection Hj as ->.
  apply list_elem_of_lookup_2 in Hq. unfold tuple in Hq.
  rewrite sort_by_key_Permutation in Hq.
  apply list_elem_of_lookup_1 in Hq as [i' Hq].
  apply lookup_zip_with_Some in Hq as (q' & p' & [= <- <-] & Hq' & Hp').
  by rewrite (NoDup_lookup _ _ _ _ Hnd Hi Hp').
Qed.

Lemma with_children_id node : with_children node (children node) = node.
Proof. by destruct node. Qed.

(** C2: under a root outcome that is not zero, unique identifiers in the
    party and SWITCH children that target distinct slots of the party,
    the switch segment holds [child.outcome / node.outcome] at the sorted
    position of the Pokémon at the child's as-is slot, EPSILON at every
    slot without such a child, and is the same for every order of the
    root's children; it is the first POKEMON_PARTY_LIMIT entries of any
    returned vector. *)
Theorem make_switch_probs_sorted (player : Player) (node : MonteCarloNode) :
  let party := party_list player in
  let sorted := Party.get_sorted_list (get_party player) in
  (length party ≤ POKEMON_PARTY_LIMIT)%nat →
  NoDup (get_id <$> party) →
  ¬ (outcome node == 0)%Q →
  switch_children_ok node (children node) (length party) →
  ∃ seg,
    make_switch_probs player node = Ok seg
    ∧ length seg = POKEMON_PARTY_LIMIT
    ∧ (∀ child (i j : nat) pkmn,
         child ∈ children node →
         switch_target node child = Some (Z.of_nat i) →
         party !! i = Some pkmn → sorted !! j = Some pkmn →
         seg !! j = Some (outcome child / outcome node)%Q)
    ∧ (∀ j : nat,
         (j < POKEMON_PARTY_LIMIT)%nat →
         (∀ child (i : nat) pkmn,
            child ∈ children node →
            switch_target node child = Some (Z.of_nat i) →
            party !! i = Some pkmn → sorted !! j ≠ Some pkmn) →
         seg !! j = Some EPSILON)
    ∧ (∀ cs', cs' ≡ₚ children node →
         make_switch_probs player (with_children node cs') = Ok seg)
    ∧ (∀ v, make_actual_output_list player node = Ok (NdArray v) →
         take POKEMON_PARTY_LIMIT v = seg)
    ∧ (∀ cs' v, cs' ≡ₚ children node →
         make_actual_output_list player (with_children node cs')
         = Ok (NdArray v) →
         take POKEMON_PARTY_LIMIT v = seg).
Proof.
  intros party sorted Hsize Hids Hnz Hok.
  assert (NoDup party) as Hnd by (by apply NoDup_fmap_1 in Hids).
  assert (length (replicate (length party) EPSILON) = length party) as Hrep
    by apply length_replicate.
  destruct (switch_loop_spec node Hnz (children node)
              (replicate (length party) EPSILON)) as
    (probs & Hloop & Hset & Hkeep); [by rewrite Hrep|].
  assert (length probs = length party) as Hlen
    by (by rewrite (switch_loop_length _ _ _ _ Hloop)).
  set (tuple := sort_by_key (fun v => get_id v.2) (zip probs party)).
  set (seg := tuple.*1
              ++ replicate (POKEMON_PARTY_LIMIT - length party) EPSILON).
  assert (length tuple.*1 = length party) as Htl.
  { unfold tuple. rewrite length_fmap, length_sort_by_key, length_zip. lia. }
  assert (make_switch_probs player node = Ok seg) as Hseg.
  { unfold make_switch_probs. fold (party_list player). fold party.
    by rewrite Hloop. }
  assert (length seg = POKEMON_PARTY_LIMIT) as Hseglen.
  { unfold seg. rewrite length_app, length_replicate, Htl. lia. }
  assert (∀ cs', cs' ≡ₚ children node →
            make_switch_probs player (with_children node cs') = Ok seg)
    as Hperm.
  { intros cs' Hp. unfold make_switch_probs. fold (party_list player).
    fold party. cbn [children with_children].
    rewrite switch_loop_with_children.
    rewrite (switch_loop_Permutation node Hnz (children node) cs');
      [by rewrite Hloop | by rewrite Hrep | done]. }
  assert (∀ node' v, make_switch_probs player node' = Ok seg →
            make_actual_output_list player node' = Ok (NdArray v) →
            take POKEMON_PARTY_LIMIT v = seg) as Htake.
  { intros node' v Hs. unfold make_actual_output_list. rewrite Hs. simpl.
    intros (moves & _ & [= <-])%bind_Ok. by apply take_app_length'. }
  exists seg. split; [done|]. split; [done|]. split; [|split; [|split]].
  - intros child i j pkmn Hin Ht Hi Hj. unfold seg.
    assert (j < length party)%nat as Hjlt.
    { apply lookup_lt_Some in Hj. unfold sorted in Hj.
      by rewrite length_sorted_list in Hj. }
    rewrite lookup_app_l by lia. unfold tuple.
    rewrite (sorted_tuple_lookup probs party i j pkmn); eauto.
  - intros j Hj Hnone. unfold seg.
    destruct (decide (j < length party)%nat) as [Hjlt|Hjge].
    + rewrite lookup_app_l by lia.
      destruct (sorted !! j) as [pkmn|] eqn:Hs.
      2:{ apply lookup_ge_None in Hs. unfold sorted in Hs.
          rewrite length_sorted_list in Hs. fold party in Hs. lia. }
      assert (pkmn ∈ party) as Hin.
      { apply list_elem_of_lookup_2 in Hs. unfold sorted in Hs.
        unfold Party.get_sorted_list in Hs.
        by rewrite sort_by_key_Permutation in Hs. }
      apply list_elem_of_lookup_1 in Hin as [i Hi]. unfold tuple.
      rewrite (sorted_tuple_lookup probs party i j pkmn); eauto.
      rewrite Hkeep.
      * apply lookup_replicate_2. by apply lookup_lt_Some in Hi.
      * intros child Hc Ht. by apply (Hnone child i pkmn).
    + rewrite lookup_app_r by lia. apply lookup_replicate_2. lia.
  - done.
  - split.
    + intros v. by apply Htake.
    + intros cs' v Hp. apply Htake. by apply Hperm.
Qed.

Lemma make_switch_probs_sorted_witness :
  ∃ seg, make_switch_probs duo_player duo_root = Ok seg
         ∧ seg !! 0%nat = Some (1 / 4)%Q
         ∧ seg !! 1%nat = Some EPSILON
         ∧ ∃ v, make_actual_output_list duo_player duo_root = Ok (NdArray v)
                ∧ take POKEMON_PARTY_LIMIT v = seg.
Proof.
  destruct (make_switch_probs_sorted duo_player duo_root)
    as (seg & Hseg & _ & Hset & Heps & _ & Htake & _).
  - vm_compute. lia.
  - apply (bool_decide_unpack _). by vm_compute.
  - by vm_compute.
  - split.
    + repeat constructor; try discriminate.
      intros _. exists 1%nat. split; [reflexivity | vm_compute; lia].
    + apply (bool_decide_unpack _). by vm_compute.
  - exists seg. split; [done|]. split; [|split].
    + apply (Hset (leaf SWITCH "s1" 1 0) 1%nat 0%nat bulbasaur);
        [by left | reflexivity..].
    + apply Heps; [vm_compute; lia|].
      intros child i pkmn Hin Ht Hi Hj.
      repeat (apply elem_of_cons in Hin as [->|Hin]);
        try discriminate Ht; [|by apply elem_of_nil in Hin].
      assert (switch_target duo_root (leaf SWITCH "s1" 1 0) = Some 1%Z) as E
        by reflexivity.
      rewrite E in Ht. assert (i = 1%nat) as -> by (inversion Ht; lia).
      cbv in Hi, Hj. congruence.
    + eexists. split; [vm_compute; reflexivity|]. apply Htake.
      vm_compute. reflexivity.
Defined.

(** ** Action decoder *)

Lemma find_current_missing cid (l : list Pokemon) (idx : Z) :
  Forall (fun pkmn => get_id pkmn ≠ cid) l → find_current cid l idx = (-1)%Z.
Proof.
  intros H. revert idx. induction H as [|pkmn l Hne _ IH]; intros idx; simpl.
  - done.
  - apply Z.eqb_neq in Hne. by rewrite Hne.
Qed.

Lemma find_current_found cid (l : list Pokemon) (idx : Z) (i : nat) pkmn :
  l !! i = Some pkmn → get_id pkmn = cid →
  (∀ (j : nat) q, (j < i)%nat → l !! j = Some q → get_id q ≠ cid) →
  find_current cid l idx = (idx + Z.of_nat i)%Z.
Proof.
  revert idx i. induction l as [|p l IH]; intros idx i Hi Hid Hfirst.
  - done.
  - destruct i as [|i]; simpl in *.
    + injection Hi as ->. apply Z.eqb_eq in Hid. rewrite Hid. lia.
    + assert (get_id p ≠ cid) as Hne by (apply (Hfirst 0%nat); [lia | done]).
      apply Z.eqb_neq in Hne. rewrite Hne.
      rewrite (IH (idx + 1)%Z i); [lia | done | done |].
      intros j q Hj Hq. apply (Hfirst (S j)); [lia | done].
Qed.

Lemma first_argmax_unique (l : list Q) k m k' m' :
  first_argmax l k m → first_argmax l k' m' → k = k' ∧ m = m'.
Proof.
  intros (Hk & Hle & Hlt) (Hk' & Hle' & Hlt').
  assert (k = k') as ->.
  { destruct (Nat.lt_trichotomy k k') as [H|[H|H]]; [|done|].
    - pose proof (Hlt' _ _ H Hk). pose proof (Hle _ _ Hk').
      exfalso. by eapply Qlt_not_le.
    - pose proof (Hlt _ _ H Hk'). pose proof (Hle' _ _ Hk).
      exfalso. by eapply Qlt_not_le. }
  split; [done | congruence].
Qed.

Lemma fold_max_first_argmax (pre l : list Q) (k : nat) (x : Q) :
  first_argmax pre k x →
  ∃ k' m,
    fold_left (fun m y => if Qle_bool y m then m else y) l x = m
    ∧ first_argmax (pre ++ l) k' m.
Proof.
  revert pre k x. induction l as [|y l IH]; intros pre k x Hx.
  - exists k, x. by rewrite app_nil_r.
  - simpl. replace (pre ++ y :: l) with ((pre ++ [y]) ++ l)
      by (by rewrite <- app_assoc).
    destruct Hx as (Hk & Hle & Hlt).
    destruct (Qle_bool y x) eqn:E.
    + apply Qle_bool_iff in E. apply (IH _ k). split; [|split].
      * by apply lookup_app_l_Some.
      * intros j z [Hz|[_ Hz]]%lookup_app_Some; [eauto|].
        apply list_lookup_singleton_Some in Hz as [_ <-]. done.
      * intros j z Hj Hz. apply (Hlt j); [done|].
        apply lookup_lt_Some in Hk.
        rewrite lookup_app_l in Hz by lia. done.
    + assert (x < y)%Q as Hxy.
      { apply Qnot_le_lt. intros H. apply Qle_bool_iff in H. congruence. }
      apply (IH _ (length pre)). split; [|split].
      * rewrite lookup_app_r by lia. by rewrite Nat.sub_diag.
      * intros j z [Hz|[_ Hz]]%lookup_app_Some.
        -- apply Qle_trans with x; [eauto | by apply Qlt_le_weak].
        -- apply list_lookup_singleton_Some in Hz as [_ <-]. apply Qle_refl.
      * intros j z Hj Hz. rewrite lookup_app_l in Hz by lia.
        apply Qle_lt_trans with x; eauto.
Qed.

Lemma py_max_first_argmax (l : list Q) :
  l ≠ [] → ∃ k m, py_max l = Ok m ∧ first_argmax l k m.
Proof.
  destruct l as [|x l]; [done|]. intros _. simpl.
  destruct (fold_max_first_argmax [x] l 0 x) as (k & m & Hm & Harg).
  - split; [done|]. split.
    + intros [|j] y Hy; [|done]. injection Hy as <-. apply Qle_refl.
    + intros j y Hj. lia.
  - exists k, m. by rewrite Hm.
Qed.

Lemma py_index_first_argmax (l : list Q) (k : nat) (m : Q) :
  first_argmax l k m → py_index l m = Ok k.
Proof.
  revert k. induction l as [|x l IH]; intros k (Hk & Hle & Hlt); [done|].
  destruct k as [|k]; simpl in *.
  - injection Hk as ->.
    assert (Qeq_bool m m = true) as -> by (apply Qeq_bool_iff; reflexivity).
    done.
  - assert (x < m)%Q as Hx by (apply (Hlt 0%nat); [lia | done]).
    assert (Qeq_bool x m = false) as ->.
    { apply not_true_is_false. intros E%Qeq_bool_iff.
      rewrite E in Hx. by apply Qlt_irrefl in Hx. }
    rewrite (IH k); [done|]. split; [done|]. split.
    + intros j y Hy. by apply (Hle (S j)).
    + intros j y Hj Hy. apply (Hlt (S j)); [lia | done].
Qed.

Lemma first_argmax_py_max (l : list Q) (k : nat) (m : Q) :
  first_argmax l k m → py_max l = Ok m ∧ py_index l m = Ok k.
Proof.
  intros H. split; [|by apply py_index_first_argmax].
  destruct (py_max_first_argmax l) as (k' & m' & Hm' & H').
  - destruct H as (Hk & _). intros ->. done.
  - by destruct (first_argmax_unique _ _ _ _ _ H H') as [_ ->].
Qed.

(** The decision taken from the two greatest entries of a list. *)
Lemma decode_action_located (output : list Q) (player : Player)
    (i km ks : nat) (mv sv : Q) :
  located_at player i →
  first_argmax
    (take POKEMON_MOVE_LIMIT
       (drop (POKEMON_PARTY_LIMIT + i * POKEMON_MOVE_LIMIT) output)) km mv →
  first_argmax (take POKEMON_PARTY_LIMIT output) ks sv →
  decode_action (PyList output) player =
    if Qle_bool sv mv then
      match MoveBank.get_as_list (get_move_bank (starting player)) !! km with
      | Some attack => Ok (TakeTurnAttack attack)
      | None => Err IndexError
      end
    else Ok (TakeTurnSwitch ks).
Proof.
  intros (pkmn & Hi & Hid & Hfirst) Hmove Hswitch. unfold decode_action.
  fold (starting player).
  rewrite (find_current_found _ _ 0 i pkmn Hi Hid Hfirst).
  rewrite decide_True by lia. rewrite Z.add_0_l, Nat2Z.id.
  unfold seq_max, seq_slice, items, seq_index, py_slice.
  replace (POKEMON_PARTY_LIMIT + i * POKEMON_MOVE_LIMIT + POKEMON_MOVE_LIMIT
           - (POKEMON_PARTY_LIMIT + i * POKEMON_MOVE_LIMIT))%nat
    with POKEMON_MOVE_LIMIT by lia.
  rewrite Nat.sub_0_r, drop_0.
  set (move_probs := take POKEMON_MOVE_LIMIT _) in *.
  set (switch_probs := take POKEMON_PARTY_LIMIT _) in *.
  apply first_argmax_py_max in Hmove as [-> Hkm].
  apply first_argmax_py_max in Hswitch as [-> Hks]. simpl.
  destruct (Qle_bool sv mv).
  - rewrite Hkm. simpl. unfold py_getitem.
    by destruct (MoveBank.get_as_list (get_move_bank (starting player)) !! km).
  - by rewrite Hks.
Qed.

(** On a numpy array both branches stop at [index]. *)
Lemma decode_action_ndarray (output : list Q) (player : Player) (i : nat) :
  located_at player i →
  (POKEMON_PARTY_LIMIT + i * POKEMON_MOVE_LIMIT < length output)%nat →
  decode_action (NdArray output) player = Err AttributeError.
Proof.
  intros (pkmn & Hi & Hid & Hfirst) Hlen. unfold decode_action.
  fold (starting player).
  rewrite (find_current_found _ _ 0 i pkmn Hi Hid Hfirst).
  rewrite decide_True by lia. rewrite Z.add_0_l, Nat2Z.id.
  unfold seq_max, seq_slice, items, seq_index, py_slice.
  replace (POKEMON_PARTY_LIMIT + i * POKEMON_MOVE_LIMIT + POKEMON_MOVE_LIMIT
           - (POKEMON_PARTY_LIMIT + i * POKEMON_MOVE_LIMIT))%nat
    with POKEMON_MOVE_LIMIT by lia.
  rewrite Nat.sub_0_r, drop_0.
  destruct (py_max_first_argmax
              (take POKEMON_MOVE_LIMIT
                 (drop (POKEMON_PARTY_LIMIT + i * POKEMON_MOVE_LIMIT) output)))
    as (km & mv & -> & _).
  { intros E. apply (f_equal length) in E.
    rewrite length_take, length_drop in E. cbn [length] in E.
    unfold POKEMON_MOVE_LIMIT, POKEMON_PARTY_LIMIT in *. lia. }
  destruct (py_max_first_argmax (take POKEMON_PARTY_LIMIT output))
    as (ks & sv & -> & _).
  { intros E. apply (f_equal length) in E.
    rewrite length_take in E. cbn [length] in E.
    unfold POKEMON_MOVE_LIMIT, POKEMON_PARTY_LIMIT in *. lia. }
  cbn [mbind result_bind]. by destruct (Qle_bool sv mv).
Qed.

(** Without the starting Pokémon in the sorted party the move slice is
    empty and [max] raises. *)
Lemma decode_action_missing_starting (output : pyseq) (player : Player) :
  Forall (fun pkmn => get_id pkmn ≠ get_id (starting player))
         (Party.get_sorted_list (get_party player)) →
  decode_action output player = Err ValueError.
Proof.
  intros H. unfold decode_action. fold (starting player).
  by rewrite (find_current_missing _ _ 0 H).
Qed.

Lemma first_argmax_intro (l : list Q) (k : nat) (m : Q) :
  py_max l = Ok m → py_index l m = Ok k → first_argmax l k m.
Proof.
  intros Hm Hk. destruct (py_max_first_argmax l) as (k' & m' & Hm' & H').
  - by intros ->.
  - assert (m' = m) as -> by congruence.
    apply py_index_first_argmax in H' as Hk'.
    by assert (k' = k) as -> by congruence.
Qed.

(** On a list the decision is as follows: with the starting Pokémon at
    sorted index [i], the decoder attacks exactly when the greatest entry
    of the move block starting at POKEMON_PARTY_LIMIT + i ×
    POKEMON_MOVE_LIMIT is at least the greatest of the first
    POKEMON_PARTY_LIMIT entries; it then calls [do_move] with the move at
    the block's first argmax in the starting Pokémon's move bank, and
    otherwise [switch_pokemon] with the first argmax of the switch
    entries. *)
Lemma predict_move_list_decision (model : list (list Q) → pyseq)
    (player other_player : Player) (mat : list (list Q)) (output : list Q)
    (i : nat) :
  let move_probs :=
    take POKEMON_MOVE_LIMIT
      (drop (POKEMON_PARTY_LIMIT + i * POKEMON_MOVE_LIMIT) output) in
  let switch_probs := take POKEMON_PARTY_LIMIT output in
  let move_bank := MoveBank.get_as_list (get_move_bank (starting player)) in
  make_input_matrix player other_player = Ok mat →
  model mat = PyList output →
  located_at player i →
  (POKEMON_PARTY_LIMIT + i * POKEMON_MOVE_LIMIT < length output)%nat →
  ∃ (km ks : nat) (mv sv : Q),
    first_argmax move_probs km mv
    ∧ first_argmax switch_probs ks sv
    ∧ ((sv <= mv)%Q → ∀ attack, move_bank !! km = Some attack →
         take_turn <$> predict_move model player other_player
         = Ok [do_move attack])
    ∧ ((mv < sv)%Q →
         take_turn <$> predict_move model player other_player
         = Ok [switch_pokemon ks]).
Proof.
  intros move_probs switch_probs move_bank Hmat Hout Hloc Hlen.
  destruct (py_max_first_argmax move_probs) as (km & mv & _ & Hmove).
  { intros E. apply (f_equal length) in E. unfold move_probs in E.
    rewrite length_take, length_drop in E. cbn [length] in E.
    unfold POKEMON_MOVE_LIMIT, POKEMON_PARTY_LIMIT in *. lia. }
  destruct (py_max_first_argmax switch_probs) as (ks & sv & _ & Hswitch).
  { intros E. apply (f_equal length) in E. unfold switch_probs in E.
    rewrite length_take in E. cbn [length] in E.
    unfold POKEMON_MOVE_LIMIT, POKEMON_PARTY_LIMIT in *. lia. }
  exists km, ks, mv, sv. split; [done|]. split; [done|].
  unfold predict_move. rewrite Hmat. cbn [mbind result_bind]. rewrite Hout.
  rewrite (decode_action_located output player i km ks mv sv); try done.
  split.
  - intros Hle%Qle_bool_iff attack Hattack. fold move_bank.
    by rewrite Hle, Hattack.
  - intros Hlt. destruct (Qle_bool sv mv) eqn:E; [|done].
    apply Qle_bool_iff in E. exfalso. by eapply Qlt_not_le.
Qed.

(** On the numpy array a Keras model returns, no decision is reached:
    whichever branch is taken, [index] raises AttributeError. *)
Lemma predict_move_ndarray (model : list (list Q) → pyseq)
    (player other_player : Player) (mat : list (list Q)) (output : list Q)
    (i : nat) :
  make_input_matrix player other_player = Ok mat →
  model mat = NdArray output →
  located_at player i →
  (POKEMON_PARTY_LIMIT + i * POKEMON_MOVE_LIMIT < length output)%nat →
  predict_move model player other_player = Err AttributeError.
Proof.
  intros Hmat Hout Hloc Hlen. unfold predict_move.
  rewrite Hmat. cbn [mbind result_bind]. rewrite Hout.
  by apply (decode_action_ndarray output player i).
Qed.

(** C8: on output vectors given as numpy arrays, as the [predict] of the
    Keras model in the signature returns them, [predict_move] raises
    AttributeError at [move_probs.index] (attack branch, a tie) and at
    [switch_probs.index] (switch branch): no callback is called.  The
    same vectors given as lists lead to the decisions the claim
    describes. *)
Theorem predict_move_ndarray_index :
  predict_move (fun _ => NdArray tie_output) solo_player duo_player
  = Err AttributeError
  ∧ predict_move (fun _ => NdArray switch_output) solo_player duo_player
    = Err AttributeError
  ∧ take_turn <$> predict_move (fun _ => PyList tie_output)
                    solo_player duo_player
    = Ok [do_move tackle]
  ∧ take_turn <$> predict_move (fun _ => PyList switch_output)
                    solo_player duo_player
    = Ok [switch_pokemon 2].
Proof. repeat split; vm_compute; reflexivity. Qed.

(** C10: when the attack branch is taken and the block's argmax lies at
    or beyond the starting Pokémon's move count, no model is returned
    and no callback is called: on a list the lookup in the move bank
    raises IndexError; on a numpy array [index] has raised
    AttributeError before the lookup. *)
Theorem predict_move_padding_index (model : list (list Q) → pyseq)
    (player other_player : Player) (mat : list (list Q)) (output : list Q)
    (i km ks : nat) (mv sv : Q) :
  make_input_matrix player other_player = Ok mat →
  items (model mat) = output →
  located_at player i →
  first_argmax
    (take POKEMON_MOVE_LIMIT
       (drop (POKEMON_PARTY_LIMIT + i * POKEMON_MOVE_LIMIT) output)) km mv →
  first_argmax (take POKEMON_PARTY_LIMIT output) ks sv →
  (sv <= mv)%Q →
  (move_bank_size (starting player) ≤ km)%nat →
  predict_move model player other_player
  = match model mat with
    | PyList _ => Err IndexError
    | NdArray _ => Err AttributeError
    end.
Proof.
  intros Hmat Hout Hloc Hmove Hswitch Hle%Qle_bool_iff Hkm.
  unfold predict_move. rewrite Hmat. cbn [mbind result_bind].
  destruct (model mat) as [l|l]; cbn [items] in Hout; subst l.
  - rewrite (decode_action_located output player i km ks mv sv); try done.
    rewrite Hle. by rewrite (lookup_ge_None_2 _ _ Hkm).
  - apply (decode_action_ndarray output player i Hloc).
    destruct Hmove as [Hk _]. apply lookup_lt_Some in Hk.
    rewrite length_take, length_drop in Hk. lia.
Qed.

Lemma predict_move_padding_index_witness :
  predict_move (fun _ => PyList padding_output) solo_player duo_player
  = Err IndexError.
Proof.
  eapply (predict_move_padding_index (fun _ => PyList padding_output)
            solo_player duo_player _ padding_output 0%nat 1%nat 5%nat
            9%Q 6%Q).
  - vm_compute. reflexivity.
  - reflexivity.
  - exists pikachu. split; [reflexivity|]. split; [reflexivity|].
    intros j q Hj. lia.
  - by apply first_argmax_intro.
  - by apply first_argmax_intro.
  - by vm_compute.
  - vm_compute. lia.
Defined.

(** C7: with a starting Pokémon that is not in the sorted party,
    [predict_move] raises ValueError at [max(move_probs)]; the switch
    branch is not reached and no model is returned, whether the output
    is a list or a numpy array. *)
Theorem predict_move_stray_starting :
  Forall (fun pkmn => get_id pkmn ≠ get_id (starting stray_player))
         (Party.get_sorted_list (get_party stray_player))
  ∧ predict_move (fun _ => PyList switch_output) stray_player solo_player
    = Err ValueError
  ∧ predict_move (fun _ => NdArray switch_output) stray_player solo_player
    = Err ValueError.
Proof.
  split; [by repeat constructor | split; vm_compute; reflexivity].
Qed.

(** ** Loss function *)

Lemma np_log_positive (l : list R) :
  Forall (fun x => (0 < x)%R) l → np_log <$> l = Some <$> (ln <$> l).
Proof.
  induction 1 as [|x l Hx _ IH]; csimpl; [done|].
  rewrite IH. f_equal. unfold np_log. by destruct (Rlt_dec 0 x).
Qed.

Lemma np_dot_finite (a b : list R) :
  length a = length b →
  np_dot a (Some <$> b)
  = Ok (Some (foldr Rplus 0%R (zip_with Rmult a b))).
Proof.
  intros Hlen. unfold np_dot.
  rewrite decide_True by (by rewrite length_fmap). do 2 f_equal.
  revert b Hlen. induction a as [|x a IH]; intros [|y b] Hlen; try done.
  csimpl. rewrite IH by (simpl in Hlen; lia). done.
Qed.

(** The dot product as a sum over positions. *)
Lemma dot_ln_positions (op tp : list R) (t o : R) :
  length tp = length op →
  foldr Rplus 0%R (zip_with Rmult op (ln <$> tp))
  = foldr Rplus 0%R
      ((fun i => nth i (op ++ [o]) 0 * ln (nth i (tp ++ [t]) 0))%R
         <$> seq 0 (length tp)).
Proof.
  revert tp. induction op as [|x op IH]; intros [|y tp] Hlen; try done.
  csimpl. f_equal. rewrite IH by (simpl in Hlen; lia).
  by rewrite <- fmap_S_seq, <- list_fmap_compose.
Qed.

(** C9: for vectors of equal length that end in an outcome and whose
    target has positive leading entries, [calculate_loss] is exactly the
    squared difference of the two outcomes plus the sum of the output's
    leading entries times the logarithms of the target's; on equal
    vectors the outcome term is zero and the loss is the policy term
    alone. *)
Theorem calculate_loss_spec (target output : list R) :
  target ≠ [] →
  length target = length output →
  (∀ (i : nat) x, (i < length target - 1)%nat → target !! i = Some x →
                  (0 < x)%R) →
  calculate_loss target output
  = Ok (Some (spec_outcome_term target output
              + spec_policy_term target output)%R)
  ∧ (output = target →
     spec_outcome_term target output = 0%R
     ∧ calculate_loss target output
       = Ok (Some (spec_policy_term target output))).
Proof.
  intros Hne Hlen Hpos.
  destruct (exists_last Hne) as (tp & t & ->).
  assert (output ≠ []) as Hne'.
  { intros ->. rewrite length_app in Hlen. simpl in Hlen. lia. }
  destruct (exists_last Hne') as (op & o & ->).
  rewrite !length_app in Hlen. simpl in Hlen.
  assert (length tp = length op) as Hlen' by lia.
  assert (Forall (fun x => (0 < x)%R) tp) as Hall.
  { apply Forall_lookup. intros i x Hx. apply (Hpos i).
    - apply lookup_lt_Some in Hx. rewrite length_app. simpl. lia.
    - by apply lookup_app_l_Some. }
  assert (calculate_loss (tp ++ [t]) (op ++ [o])
          = Ok (Some (spec_outcome_term (tp ++ [t]) (op ++ [o])
                      + spec_policy_term (tp ++ [t]) (op ++ [o]))%R)) as Hloss.
  { unfold calculate_loss, py_last. rewrite !last_snoc. simpl.
    rewrite !removelast_last, (np_log_positive _ Hall).
    rewrite np_dot_finite by (by rewrite length_fmap). simpl.
    unfold spec_outcome_term, spec_policy_term.
    rewrite length_app. simpl. rewrite Nat.add_sub.
    rewrite (dot_ln_positions op tp t o Hlen').
    rewrite nth_middle. rewrite Hlen', nth_middle. done. }
  split; [done|]. intros Heq. rewrite Hloss.
  assert (spec_outcome_term (tp ++ [t]) (op ++ [o]) = 0%R) as ->.
  { rewrite Heq. unfold spec_outcome_term. rewrite Rminus_diag.
    apply Rsqr_0. }
  split; [done|]. by rewrite Rplus_0_l.
Qed.

Lemma calculate_loss_spec_witness :
  calculate_loss [1; 1; 2]%R [3; 4; 5]%R
  = Ok (Some (spec_outcome_term [1; 1; 2]%R [3; 4; 5]%R
              + spec_policy_term [1; 1; 2]%R [3; 4; 5]%R)%R).
Proof.
  apply (calculate_loss_spec [1; 1; 2]%R [3; 4; 5]%R).
  - discriminate.
  - reflexivity.
  - intros i x Hi Hx. destruct i as [|[|i]]; simpl in Hi, Hx; [| |lia];
      injection Hx as <-; lra.
Defined.

(** * Further properties *)

(** ** State encoder: failure, shape and layout *)

Lemma fill_row_inv (pkmn : Pokemon) :
  (base_stats_nonzero pkmn ∧ fill_row pkmn = Ok (pokemon_row pkmn))
  ∨ (¬ base_stats_nonzero pkmn ∧ fill_row pkmn = Err ZeroDivisionError).
Proof.
  unfold fill_row, base_stats_nonzero, pokemon_row, move_bank_size.
  set (move_list := MoveBank.get_as_list (get_move_bank pkmn)).
  destruct (Qeq_dec (get_base_hp pkmn) 0) as [Hz|Hnz].
  { right. split; [tauto|]. by rewrite (py_div_zero _ _ Hz). }
  assert (py_div (get_hp pkmn) (get_base_hp pkmn)
          = Ok (get_hp pkmn / get_base_hp pkmn)%Q) as ->
    by (by apply py_div_Ok).
  cbn [mbind result_bind].
  assert ((Forall (fun move => ¬ (get_base_pp move == 0)%Q) move_list
           ∧ mapM (fun move => py_div (get_pp move) (get_base_pp move))
                  move_list
             = Ok ((fun move => (get_pp move / get_base_pp move)%Q)
                     <$> move_list))
          ∨ (¬ Forall (fun move => ¬ (get_base_pp move == 0)%Q) move_list
             ∧ mapM (fun move => py_div (get_pp move) (get_base_pp move))
                    move_list
               = Err ZeroDivisionError)) as [[Hall ->]|[Hex ->]].
  { induction move_list as [|move l IH]; [left; by split|].
    cbn [mapM]. destruct (Qeq_dec (get_base_pp move) 0) as [Hz|Hm].
    - right. split; [|by rewrite (py_div_zero _ _ Hz)].
      intros [H _]%Forall_cons. done.
    - assert (py_div (get_pp move) (get_base_pp move)
              = Ok (get_pp move / get_base_pp move)%Q) as ->
        by (by apply py_div_Ok).
      cbn [mbind result_bind]. destruct IH as [[Hall ->]|[Hex ->]].
      + left. split; [by constructor | done].
      + right. split; [|done]. intros [_ H]%Forall_cons. done. }
  - left. split; [done|]. done.
  - right. split; [tauto | done].
Qed.

Lemma mapM_fill_row_inv (l : list Pokemon) :
  (Forall base_stats_nonzero l ∧ mapM fill_row l = Ok (pokemon_row <$> l))
  ∨ (¬ Forall base_stats_nonzero l ∧ mapM fill_row l = Err ZeroDivisionError).
Proof.
  induction l as [|pkmn l IH]; [left; by split|].
  cbn [mapM]. destruct (fill_row_inv pkmn) as [[Hb ->]|[Hb ->]].
  - cbn [mbind result_bind]. destruct IH as [[Hall ->]|[Hex ->]].
    + left. split; [by constructor | done].
    + right. split; [|done]. intros [_ H]%Forall_cons. done.
  - right. split; [|done]. intros [H _]%Forall_cons. done.
Qed.

Lemma length_pokemon_row (pkmn : Pokemon) :
  length (pokemon_row pkmn)
  = (1 + max POKEMON_MOVE_LIMIT (move_bank_size pkmn))%nat.
Proof.
  unfold pokemon_row, move_bank_size.
  rewrite length_cons, length_app, length_fmap, length_replicate. lia.
Qed.

Lemma Forall_replicate_iff {A} (P : A → Prop) (n : nat) (x : A) :
  Forall P (replicate n x) ↔ n = 0%nat ∨ P x.
Proof.
  destruct n as [|n]; cbn [replicate].
  - split; [auto | constructor].
  - split.
    + intros [H _]%Forall_cons. auto.
    + intros [?|H]; [lia|]. constructor; [done | by apply Forall_replicate].
Qed.

(** The rows collected for [np.array] have one length exactly when the
    move banks and the parties are as [rows_of_one_width] says. *)
Lemma input_rows_one_width (player other_player : Player) :
  let l1 := Party.get_sorted_list (get_party player) in
  let l2 := Party.get_sorted_list (get_party other_player) in
  (∃ c, Forall (fun row => length row = c)
          ((pokemon_row <$> l1)
           ++ replicate (POKEMON_PARTY_LIMIT - length l1) empty_row
           ++ (pokemon_row <$> l2)
           ++ replicate (POKEMON_PARTY_LIMIT - length l2) empty_row))
  ↔ rows_of_one_width player other_player.
Proof.
  intros l1 l2. unfold rows_of_one_width.
  assert (length l1 = length (party_list player)) as Hl1
    by apply length_sorted_list.
  assert (length l2 = length (party_list other_player)) as Hl2
    by apply length_sorted_list.
  assert (∀ c,
            Forall (fun pkmn =>
                      max POKEMON_MOVE_LIMIT (move_bank_size pkmn) = c)
                   (party_list player ++ party_list other_player)
            ↔ Forall (fun pkmn =>
                        max POKEMON_MOVE_LIMIT (move_bank_size pkmn) = c)
                     l1
              ∧ Forall (fun pkmn =>
                          max POKEMON_MOVE_LIMIT (move_bank_size pkmn) = c)
                       l2) as Hperm.
  { intros c. rewrite Forall_app.
    unfold l1, l2, Party.get_sorted_list, party_list.
    by rewrite !sort_by_key_Permutation. }
  assert (length empty_row = 5%nat) as Hempty by reflexivity.
  rewrite <- Hl1, <- Hl2. split.
  - intros [c H]. exists (c - 1)%nat. rewrite Hperm.
    rewrite !Forall_app, !Forall_fmap, !Forall_replicate_iff in H.
    destruct H as (H1 & P1 & H2 & P2). rewrite Hempty in P1, P2.
    split; [split|].
    + eapply Forall_impl; [exact H1|]. intros pkmn. unfold compose.
      rewrite length_pokemon_row. lia.
    + eapply Forall_impl; [exact H2|]. intros pkmn. unfold compose.
      rewrite length_pokemon_row. lia.
    + unfold POKEMON_MOVE_LIMIT, POKEMON_PARTY_LIMIT in *. lia.
  - intros (c & [H1 H2]%Hperm & Hpad). exists (1 + c)%nat.
    rewrite !Forall_app, !Forall_fmap, !Forall_replicate_iff, Hempty.
    assert (∀ l,
              Forall (fun pkmn =>
                        max POKEMON_MOVE_LIMIT (move_bank_size pkmn) = c) l →
              Forall (fun pkmn => length (pokemon_row pkmn) = (1 + c)%nat) l)
      as Hrow.
    { intros l H. eapply Forall_impl; [exact H|]. intros pkmn.
      rewrite length_pokemon_row. lia. }
    unfold POKEMON_MOVE_LIMIT, POKEMON_PARTY_LIMIT in *.
    repeat split; try (by apply Hrow); lia.
Qed.

(** The matrix is the array of the rows written out here, unless a
    division fails before [np.array] is reached. *)
Lemma make_input_matrix_inv (player other_player : Player) :
  let l1 := Party.get_sorted_list (get_party player) in
  let l2 := Party.get_sorted_list (get_party other_player) in
  (Forall base_stats_nonzero (party_list player ++ party_list other_player)
   ∧ make_input_matrix player other_player
     = np_array ((pokemon_row <$> l1)
                 ++ replicate (POKEMON_PARTY_LIMIT - length l1) empty_row
                 ++ (pokemon_row <$> l2)
                 ++ replicate (POKEMON_PARTY_LIMIT - length l2) empty_row))
  ∨ (¬ Forall base_stats_nonzero
         (party_list player ++ party_list other_player)
     ∧ make_input_matrix player other_player = Err ZeroDivisionError).
Proof.
  intros l1 l2. unfold make_input_matrix, fill_rows, fill_empty.
  fold l1 l2. rewrite Forall_app.
  assert (Forall base_stats_nonzero l1
          ↔ Forall base_stats_nonzero (party_list player)) as H1
    by (unfold l1, Party.get_sorted_list, party_list;
        by rewrite sort_by_key_Permutation).
  assert (Forall base_stats_nonzero l2
          ↔ Forall base_stats_nonzero (party_list other_player)) as H2
    by (unfold l2, Party.get_sorted_list, party_list;
        by rewrite sort_by_key_Permutation).
  destruct (mapM_fill_row_inv l1) as [[Hb1 ->]|[Hb1 ->]];
    cbn [mbind result_bind]; [|right; split; [tauto | done]].
  destruct (mapM_fill_row_inv l2) as [[Hb2 ->]|[Hb2 ->]];
    cbn [mbind result_bind]; [|right; split; [tauto | done]].
  left. split; [tauto|]. by rewrite app_nil_l, <- !app_assoc.
Qed.

(** X1: [make_input_matrix] raises ZeroDivisionError exactly when a base
    HP or a base PP of either party is zero.  Otherwise it returns a
    matrix exactly when the rows it collected have one length, and
    raises the ValueError of [np.array] when they have not, as with a
    move bank of more than POKEMON_MOVE_LIMIT moves next to a smaller
    one or to a missing party slot.  It raises nothing else. *)
Theorem make_input_matrix_raises (player other_player : Player) :
  ((∃ mat, make_input_matrix player other_player = Ok mat)
   ↔ Forall base_stats_nonzero (party_list player ++ party_list other_player)
     ∧ rows_of_one_width player other_player)
  ∧ (make_input_matrix player other_player = Err ZeroDivisionError
     ↔ ¬ Forall base_stats_nonzero
           (party_list player ++ party_list other_player))
  ∧ (make_input_matrix player other_player = Err ValueError
     ↔ Forall base_stats_nonzero
         (party_list player ++ party_list other_player)
       ∧ ¬ rows_of_one_width player other_player)
  ∧ (∀ e, make_input_matrix player other_player = Err e →
       e = ZeroDivisionError ∨ e = ValueError).
Proof.
  pose proof (input_rows_one_width player other_player) as Hw.
  cbv zeta in Hw.
  destruct (make_input_matrix_inv player other_player) as [[H ->]|[H ->]].
  - match goal with |- context [np_array ?rows] =>
      destruct (np_array_inv rows) as [[-> Hc]|[-> Hc]] end;
      rewrite Hw in Hc.
    + split; [split; [done | eauto]|]. split; [split; done|].
      split; [split; [done | tauto] | done].
    + split; [split; [by intros [mat [=]] | tauto]|].
      split; [split; done|]. split; [done|]. intros e [= <-]. by right.
  - split; [split; [by intros [mat [=]] | tauto]|].
    split; [done|]. split; [split; [done | tauto]|].
    intros e [= <-]. by left.
Qed.

Lemma make_input_matrix_Ok_inv (player other_player : Player)
    (mat : list (list Q)) :
  let l1 := Party.get_sorted_list (get_party player) in
  let l2 := Party.get_sorted_list (get_party other_player) in
  make_input_matrix player other_player = Ok mat →
  mat = (pokemon_row <$> l1)
        ++ replicate (POKEMON_PARTY_LIMIT - length l1) empty_row
        ++ (pokemon_row <$> l2)
        ++ replicate (POKEMON_PARTY_LIMIT - length l2) empty_row.
Proof.
  intros l1 l2 H.
  destruct (make_input_matrix_inv player other_player) as [[_ E]|[_ E]];
    rewrite E in H; [|done].
  by apply np_array_Ok in H as [-> _].
Qed.

Lemma make_input_matrix_Ok_uniform (player other_player : Player)
    (mat : list (list Q)) :
  make_input_matrix player other_player = Ok mat →
  ∃ c, Forall (fun row => length row = c) mat.
Proof.
  intros H.
  destruct (make_input_matrix_inv player other_player) as [[_ E]|[_ E]];
    rewrite E in H; [|done].
  by apply np_array_Ok in H as [-> Hc].
Qed.

(** X2: a returned matrix has max(POKEMON_PARTY_LIMIT, n) rows per
    party, all of one length, so an oversized party is neither cut nor
    refused; the matrix has the shape 12 × 5 exactly when both parties
    have at most POKEMON_PARTY_LIMIT Pokémon and every move bank has at
    most POKEMON_MOVE_LIMIT moves. *)
Theorem make_input_matrix_well_shaped (player other_player : Player)
    (mat : list (list Q)) :
  make_input_matrix player other_player = Ok mat →
  length mat
  = (max POKEMON_PARTY_LIMIT (length (party_list player))
     + max POKEMON_PARTY_LIMIT (length (party_list other_player)))%nat
  ∧ (∃ c, Forall (fun row => length row = c) mat)
  ∧ ((length mat = (2 * POKEMON_PARTY_LIMIT)%nat
      ∧ Forall (fun row => length row = (1 + POKEMON_MOVE_LIMIT)%nat) mat)
     ↔ ((length (party_list player) ≤ POKEMON_PARTY_LIMIT)%nat
        ∧ (length (party_list other_player) ≤ POKEMON_PARTY_LIMIT)%nat
        ∧ Forall (fun pkmn => (move_bank_size pkmn ≤ POKEMON_MOVE_LIMIT)%nat)
                 (party_list player ++ party_list other_player))).
Proof.
  intros H. pose proof (make_input_matrix_Ok_uniform _ _ _ H) as Huni.
  apply make_input_matrix_Ok_inv in H as ->.
  cut (∀ A B C : Prop, B → A ∧ C → A ∧ B ∧ C); [|tauto].
  intros Hcut. apply Hcut; [exact Huni|]. clear Huni Hcut.
  set (l1 := Party.get_sorted_list (get_party player)).
  set (l2 := Party.get_sorted_list (get_party other_player)).
  assert (length l1 = length (party_list player)) as Hl1
    by apply length_sorted_list.
  assert (length l2 = length (party_list other_player)) as Hl2
    by apply length_sorted_list.
  assert (∀ l : list Pokemon,
            Forall (fun row => length row = (1 + POKEMON_MOVE_LIMIT)%nat)
                   (pokemon_row <$> l)
            ↔ Forall (fun pkmn => (move_bank_size pkmn ≤ POKEMON_MOVE_LIMIT)%nat)
                     l) as Hrows.
  { intros l. rewrite Forall_fmap. apply Forall_iff. intros pkmn.
    unfold compose. rewrite length_pokemon_row. lia. }
  assert (∀ n, Forall (fun row => length row = (1 + POKEMON_MOVE_LIMIT)%nat)
                      (replicate n empty_row)) as Hpad
    by (intros n; by apply Forall_replicate).
  assert (Forall (fun pkmn => (move_bank_size pkmn ≤ POKEMON_MOVE_LIMIT)%nat)
                 (party_list player ++ party_list other_player)
          ↔ Forall (fun pkmn => (move_bank_size pkmn ≤ POKEMON_MOVE_LIMIT)%nat)
                   (l1 ++ l2)) as ->.
  { unfold l1, l2, Party.get_sorted_list, party_list.
    by rewrite !sort_by_key_Permutation. }
  rewrite !length_app, !length_fmap, !length_replicate, !Forall_app, !Hrows.
  rewrite <- Hl1, <- Hl2. split; [lia|].
  split.
  - intros (Hlen & H1 & _ & H2 & _). split; [lia|]. split; [lia | done].
  - intros (Hn1 & Hn2 & H1 & H2). split; [lia|]. by repeat split.
Qed.

Lemma make_input_matrix_well_shaped_witness :
  ∃ mat, make_input_matrix duo_player fainted_player = Ok mat
         ∧ length mat = 12%nat.
Proof.
  eexists. split; [vm_compute; reflexivity|].
  edestruct (make_input_matrix_well_shaped duo_player fainted_player)
    as [Hlen _]; [vm_compute; reflexivity|].
  exact Hlen.
Defined.

(** X3: in a returned matrix the focused player's Pokémon fill the rows
    from 0 in sorted order, the opponent's the rows from
    POKEMON_PARTY_LIMIT in sorted order, each row being the HP ratio,
    the PP ratios in move-bank order and EPSILON for the missing moves;
    the rows of the missing party slots are all EPSILON. *)
Theorem make_input_matrix_rows (player other_player : Player)
    (mat : list (list Q)) :
  let l1 := Party.get_sorted_list (get_party player) in
  let l2 := Party.get_sorted_list (get_party other_player) in
  make_input_matrix player other_player = Ok mat →
  (length (party_list player) ≤ POKEMON_PARTY_LIMIT)%nat →
  (∀ (k : nat) pkmn, l1 !! k = Some pkmn →
     mat !! k = Some (pokemon_row pkmn))
  ∧ (∀ (k : nat) pkmn, l2 !! k = Some pkmn →
       mat !! (POKEMON_PARTY_LIMIT + k)%nat = Some (pokemon_row pkmn))
  ∧ (∀ k : nat, (length l1 ≤ k < POKEMON_PARTY_LIMIT)%nat →
       mat !! k = Some empty_row)
  ∧ (∀ k : nat, (length l2 ≤ k < POKEMON_PARTY_LIMIT)%nat →
       mat !! (POKEMON_PARTY_LIMIT + k)%nat = Some empty_row).
Proof.
  intros l1 l2 ->%make_input_matrix_Ok_inv Hn. fold l1 l2.
  assert (length l1 = length (party_list player)) as Hl1
    by apply length_sorted_list.
  set (pad1 := replicate (POKEMON_PARTY_LIMIT - length l1) empty_row).
  set (pad2 := replicate (POKEMON_PARTY_LIMIT - length l2) empty_row).
  assert (length (pokemon_row <$> l1) = length l1) as Hr1
    by apply length_fmap.
  assert (length (pokemon_row <$> l2) = length l2) as Hr2
    by apply length_fmap.
  assert (length pad1 = (POKEMON_PARTY_LIMIT - length l1)%nat) as Hp1
    by apply length_replicate.
  split; [|split; [|split]].
  - intros k pkmn Hk. rewrite lookup_app_l.
    + by rewrite list_lookup_fmap, Hk.
    + rewrite Hr1. by apply lookup_lt_Some in Hk.
  - intros k pkmn Hk. rewrite lookup_app_r by lia.
    rewrite lookup_app_r by lia.
    replace (POKEMON_PARTY_LIMIT + k - length (pokemon_row <$> l1)
             - length pad1)%nat with k by lia.
    rewrite lookup_app_l.
    + by rewrite list_lookup_fmap, Hk.
    + rewrite Hr2. by apply lookup_lt_Some in Hk.
  - intros k Hk. rewrite lookup_app_r by lia. rewrite lookup_app_l by lia.
    apply lookup_replicate_2. lia.
  - intros k Hk. rewrite lookup_app_r by lia.
    rewrite lookup_app_r by lia. rewrite lookup_app_r by lia.
    apply lookup_replicate_2. lia.
Qed.

Lemma make_input_matrix_rows_witness :
  ∃ mat, make_input_matrix duo_player solo_player = Ok mat
         ∧ mat !! 0%nat = Some (pokemon_row bulbasaur)
         ∧ mat !! 6%nat = Some (pokemon_row pikachu)
         ∧ mat !! 5%nat = Some empty_row.
Proof.
  eexists. split; [vm_compute; reflexivity|].
  edestruct (make_input_matrix_rows duo_player solo_player)
    as (H1 & H2 & H3 & _).
  - vm_compute. reflexivity.
  - vm_compute. lia.
  - split; [by apply (H1 0%nat)|]. split; [by apply (H2 0%nat)|].
    apply (H3 5%nat). vm_compute. lia.
Defined.

Lemma Qdiv_in_unit (a b : Q) :
  (0 <= a <= b)%Q → (0 < b)%Q → (0 <= a / b <= 1)%Q.
Proof.
  intros [Ha Hab] Hb. split.
  - apply Qle_shift_div_l; [done|]. by rewrite Qmult_0_l.
  - apply Qle_shift_div_r; [done|]. by rewrite Qmult_1_l.
Qed.

Lemma EPSILON_in_unit : (0 <= EPSILON <= 1)%Q.
Proof. split; by vm_compute. Qed.

(** X5: when every current HP and PP lies between zero and its positive
    base value, every entry of a returned matrix lies between 0 and 1. *)
Theorem make_input_matrix_unit_range (player other_player : Player)
    (mat : list (list Q)) :
  Forall stats_in_range (party_list player ++ party_list other_player) →
  make_input_matrix player other_player = Ok mat →
  Forall (Forall (fun x => (0 <= x <= 1)%Q)) mat.
Proof.
  intros Hall ->%make_input_matrix_Ok_inv.
  assert (∀ pkmn, stats_in_range pkmn →
            Forall (fun x => (0 <= x <= 1)%Q) (pokemon_row pkmn)) as Hrow.
  { intros pkmn (Hhp & Hb & Hpp). unfold pokemon_row.
    constructor; [by apply Qdiv_in_unit|]. apply Forall_app. split.
    - apply Forall_fmap. eapply Forall_impl; [exact Hpp|].
      intros move [? ?]. simpl. by apply Qdiv_in_unit.
    - apply Forall_replicate, EPSILON_in_unit. }
  assert (∀ n, Forall (Forall (fun x => (0 <= x <= 1)%Q))
                      (replicate n empty_row)) as Hpad.
  { intros n. apply Forall_replicate. repeat constructor; by vm_compute. }
  apply Forall_app in Hall as [H1 H2].
  apply sorted_list_Forall in H1, H2.
  repeat (apply Forall_app; split); try apply Hpad.
  - apply Forall_fmap. eapply Forall_impl; [exact H1 | exact Hrow].
  - apply Forall_fmap. eapply Forall_impl; [exact H2 | exact Hrow].
Qed.

Lemma make_input_matrix_unit_range_witness :
  ∃ mat, make_input_matrix duo_player fainted_player = Ok mat
         ∧ Forall (Forall (fun x => (0 <= x <= 1)%Q)) mat.
Proof.
  eexists. split; [vm_compute; reflexivity|].
  apply (make_input_matrix_unit_range duo_player fainted_player);
    [|vm_compute; reflexivity].
  repeat constructor; by vm_compute.
Defined.

(** ** The sorted order of a party *)

Lemma insert_by_key_StronglySorted {A} (key : A → Z) x (l : list A) :
  StronglySorted (fun a b => (key a ≤ key b)%Z) l →
  StronglySorted (fun a b => (key a ≤ key b)%Z) (insert_by_key key x l).
Proof.
  induction 1 as [|y l Hl IH Hy]; simpl.
  - repeat constructor.
  - destruct (key x <=? key y)%Z eqn:E.
    + apply Z.leb_le in E. constructor; [by constructor|].
      constructor; [done|]. eapply Forall_impl; [exact Hy|].
      intros z Hz. simpl in Hz. lia.
    + apply Z.leb_gt in E. constructor; [done|].
      rewrite insert_by_key_Permutation. constructor; [lia | done].
Qed.

Lemma sort_by_key_StronglySorted {A} (key : A → Z) (l : list A) :
  StronglySorted (fun a b => (key a ≤ key b)%Z) (sort_by_key key l).
Proof.
  unfold sort_by_key. induction l as [|x l IH]; simpl; [constructor|].
  by apply insert_by_key_StronglySorted.
Qed.

Lemma NoDup_fmap_elem_inj {A B} (f : A → B) (l : list A) x y :
  NoDup (f <$> l) → x ∈ l → y ∈ l → f x = f y → x = y.
Proof.
  intros Hnd [i Hi]%list_elem_of_lookup_1 [j Hj]%list_elem_of_lookup_1 Hf.
  assert (i = j) as ->; [|congruence].
  apply (NoDup_lookup _ _ _ (f x) Hnd).
  - by rewrite list_lookup_fmap, Hi.
  - by rewrite list_lookup_fmap, Hj, Hf.
Qed.

(** With unique keys the sorted list depends on the members only. *)
Lemma sort_by_key_unique {A} (key : A → Z) (l l' : list A) :
  l' ≡ₚ l → NoDup (key <$> l) → sort_by_key key l' = sort_by_key key l.
Proof.
  intros Hp Hnd. apply (StronglySorted_unique_strong
                          (fun a b => (key a ≤ key b)%Z)).
  - intros x1 x2 H1 H2 H12 H21.
    rewrite sort_by_key_Permutation in H1. rewrite Hp in H1.
    rewrite sort_by_key_Permutation in H2.
    apply (NoDup_fmap_elem_inj key l); [done..|lia].
  - apply sort_by_key_StronglySorted.
  - apply sort_by_key_StronglySorted.
  - by rewrite !sort_by_key_Permutation.
Qed.

(** X4: with unique identifiers in each party, the matrix does not
    depend on the as-is (battle) order of either party. *)
Theorem make_input_matrix_order_free (player other_player : Player)
    (l1 l2 : list Pokemon) :
  NoDup (get_id <$> party_list player) →
  NoDup (get_id <$> party_list other_player) →
  l1 ≡ₚ party_list player →
  l2 ≡ₚ party_list other_player →
  make_input_matrix (with_party_list player l1)
                    (with_party_list other_player l2)
  = make_input_matrix player other_player.
Proof.
  intros Hnd1 Hnd2 Hp1 Hp2. unfold make_input_matrix.
  assert (Party.get_sorted_list (get_party (with_party_list player l1))
          = Party.get_sorted_list (get_party player)) as ->
    by (by apply sort_by_key_unique).
  assert (Party.get_sorted_list (get_party (with_party_list other_player l2))
          = Party.get_sorted_list (get_party other_player)) as ->
    by (by apply sort_by_key_unique).
  done.
Qed.

Lemma make_input_matrix_order_free_witness :
  make_input_matrix (with_party_list duo_player [bulbasaur; pikachu])
                    (with_party_list solo_player [pikachu])
  = make_input_matrix duo_player solo_player.
Proof.
  apply (make_input_matrix_order_free duo_player solo_player).
  - apply (bool_decide_unpack _). by vm_compute.
  - apply (bool_decide_unpack _). by vm_compute.
  - apply Permutation_swap.
  - done.
Defined.

(** X6: with unique identifiers, the decision of the decoder does not
    depend on the as-is order of the party either: the starting Pokémon
    is looked up by identifier in the sorted party. *)
Theorem decode_action_order_free (output : pyseq) (player : Player)
    (l : list Pokemon) :
  NoDup (get_id <$> party_list player) →
  l ≡ₚ party_list player →
  decode_action output (with_party_list player l)
  = decode_action output player.
Proof.
  intros Hnd Hp. unfold decode_action.
  assert (Party.get_sorted_list (get_party (with_party_list player l))
          = Party.get_sorted_list (get_party player)) as ->
    by (by apply sort_by_key_unique).
  done.
Qed.

Lemma decode_action_order_free_witness :
  decode_action (PyList attack_output)
                (with_party_list duo_player [bulbasaur; pikachu])
  = decode_action (PyList attack_output) duo_player.
Proof.
  apply (decode_action_order_free (PyList attack_output) duo_player).
  - apply (bool_decide_unpack _). by vm_compute.
  - apply Permutation_swap.
Defined.

(** ** Target encoder: when it returns *)

Lemma py_setitem_inv {A} (l : list A) (i : Z) (v : A) :
  (slot_in_range (length l) i ∧ ∃ l', py_setitem l i v = Ok l')
  ∨ (¬ slot_in_range (length l) i ∧ py_setitem l i v = Err IndexError).
Proof.
  unfold py_setitem, slot_in_range. repeat case_decide.
  - left. split; [lia | eauto].
  - left. split; [lia | eauto].
  - right. split; [lia | done].
Qed.

Lemma py_div_inv (a b : Q) :
  (¬ (b == 0)%Q ∧ py_div a b = Ok (a / b)%Q)
  ∨ ((b == 0)%Q ∧ py_div a b = Err ZeroDivisionError).
Proof.
  destruct (Qeq_dec b 0) as [Hz|Hnz].
  - right. split; [done | by apply py_div_zero].
  - left. split; [done | by apply py_div_Ok].
Qed.

Lemma switch_loop_returns node cs (probs : list Q) :
  (∃ probs', switch_loop node cs probs = Ok probs')
  ↔ Forall (switch_step_ok node (length probs)) cs.
Proof.
  revert probs. induction cs as [|c cs IH]; intros probs.
  - split; [constructor | eauto].
  - rewrite Forall_cons. unfold switch_step_ok at 1, child_resolves.
    cbn [switch_loop]. destruct (action_type c) eqn:Hty.
    { rewrite IH. split; [intros H; split; [done | done] | tauto]. }
    destruct (first_key node c SWITCH) as [k|e]; cbn [mbind result_bind].
    2:{ split; [intros [? [=]] | intros [H _]].
        destruct (H eq_refl) as (_ & k & [=] & _). }
    destruct (py_div_inv (outcome c) (outcome node)) as [[Hnz ->]|[Hz ->]];
      cbn [mbind result_bind].
    2:{ split; [intros [? [=]] | intros [H _]].
        by destruct (H eq_refl) as (Hnz & _). }
    destruct (py_setitem_inv probs k (outcome c / outcome node)%Q)
      as [[Hr [probs1 Hs]]|[Hr Hs]]; rewrite Hs; cbn [mbind result_bind].
    + rewrite IH, (py_setitem_Ok _ _ _ _ Hs). split; [|tauto].
      intros H. split; [|done]. intros _. split; [done|]. by exists k.
    + split; [intros [? [=]] | intros [H _]].
      destruct (H eq_refl) as (_ & k' & [= <-] & Hr'). done.
Qed.

Lemma move_loop_returns node cs (m : gmap Z (list Q)) :
  map_Forall (fun _ block => length block = POKEMON_MOVE_LIMIT) m →
  (∃ m', move_loop node cs m = Ok m') ↔ Forall (attack_step_ok node) cs.
Proof.
  revert m. induction cs as [|c cs IH]; intros m Hm.
  - split; [constructor | eauto].
  - rewrite Forall_cons. unfold attack_step_ok at 1, child_resolves.
    cbn [move_loop]. destruct (action_type c) eqn:Hty.
    2:{ rewrite (IH m Hm). split; [intros H; split; [done | done] | tauto]. }
    destruct (first_key node c ATTACK) as [k|e]; cbn [mbind result_bind].
    2:{ split; [intros [? [=]] | intros [H _]].
        destruct (H eq_refl) as (_ & k & [=] & _). }
    destruct (py_div_inv (outcome c) (outcome node)) as [[Hnz ->]|[Hz ->]];
      cbn [mbind result_bind].
    2:{ split; [intros [? [=]] | intros [H _]].
        by destruct (H eq_refl) as (Hnz & _). }
    set (block := default (replicate POKEMON_MOVE_LIMIT EPSILON)
                          (m !! detokenize_child c)).
    assert (length block = POKEMON_MOVE_LIMIT) as Hblock.
    { unfold block. destruct (m !! detokenize_child c) as [b|] eqn:E.
      - by apply Hm in E.
      - apply length_replicate. }
    destruct (py_setitem_inv block k (outcome c / outcome node)%Q)
      as [[Hr [block1 Hs]]|[Hr Hs]]; rewrite Hs; cbn [mbind result_bind].
    + rewrite IH.
      * rewrite Hblock in Hr. split; [|tauto].
        intros H. split; [|done]. intros _. split; [done|]. by exists k.
      * apply map_Forall_insert_2; [|done].
        by rewrite (py_setitem_Ok _ _ _ _ Hs).
    + rewrite Hblock in Hr. split; [intros [? [=]] | intros [H _]].
      destruct (H eq_refl) as (_ & k' & [= <-] & Hr'). done.
Qed.

(** The Pokémon that have a block after the second loop. *)
Lemma move_loop_dom node cs (m m' : gmap Z (list Q)) (id : Z) :
  move_loop node cs m = Ok m' →
  is_Some (m' !! id)
  ↔ is_Some (m !! id)
    ∨ ∃ c, c ∈ cs ∧ action_type c = ATTACK ∧ detokenize_child c = id.
Proof.
  revert m. induction cs as [|c cs IH]; intros m; cbn [move_loop].
  - intros [= <-]. split; [by left | intros [H|(c & Hin & _)]; [done|]].
    by apply elem_of_nil in Hin.
  - destruct (action_type c) eqn:Hty.
    2:{ intros H. rewrite (IH m H). split.
        - intros [?|(c' & ? & ? & ?)]; [by left|].
          right. exists c'. split; [by right | done].
        - intros [?|(c' & [->|?]%elem_of_cons & Ha & ?)];
            [by left | congruence | right; eauto]. }
    intros (k & _ & H)%bind_Ok. apply bind_Ok in H as (q & _ & H).
    apply bind_Ok in H as (block & _ & H). rewrite (IH _ H).
    rewrite lookup_insert_is_Some. split.
    + intros [[<-|[_ ?]]|(c' & ? & ? & ?)].
      * right. exists c. split; [by left | done].
      * by left.
      * right. exists c'. split; [by right | done].
    + intros [?|(c' & [->|?]%elem_of_cons & Ha & Hid)].
      * left. destruct (decide (detokenize_child c = id)); [by left|].
        by right.
      * left. by left.
      * right. eauto.
Qed.

Lemma mapM_move_block_returns (m : gmap Z (list Q)) (l : list Pokemon) :
  (∃ blocks, mapM (move_block m) l = Ok blocks)
  ↔ Forall (fun pkmn => is_Some (m !! get_id pkmn)) l.
Proof.
  induction l as [|pkmn l IH]; cbn [mapM].
  - split; [constructor | eauto].
  - rewrite Forall_cons, <- IH. split.
    + intros [blocks H]. apply bind_Ok in H as (y & Hy & H).
      apply bind_Ok in H as (k & Hk & _). split; [|eauto].
      unfold move_block in Hy. by destruct (m !! get_id pkmn).
    + intros [[block Hb] [blocks Hbs]]. exists (block :: blocks).
      assert (move_block m pkmn = Ok block) as ->
        by (unfold move_block; by rewrite Hb).
      cbn [mbind result_bind]. by rewrite Hbs.
Qed.

(** X7: [make_actual_output_list] returns a vector exactly when the root
    has no child or an outcome that is not zero, the slot of every child
    resolves in [childrenMap] to an index its list accepts, and every
    Pokémon of the party has an ATTACK child. *)
Theorem make_actual_output_list_returns (player : Player)
    (node : MonteCarloNode) :
  (∃ v, make_actual_output_list player node = Ok v) ↔ encodable player node.
Proof.
  set (n := length (party_list player)).
  assert ((∃ seg, make_switch_probs player node = Ok seg)
          ↔ Forall (switch_step_ok node n) (children node)) as Hsw.
  { unfold make_switch_probs. fold (party_list player). fold n.
    pose proof (switch_loop_returns node (children node)
                  (replicate n EPSILON)) as Hr.
    rewrite length_replicate in Hr. rewrite <- Hr.
    destruct (switch_loop node (children node) (replicate n EPSILON));
      cbn [mbind result_bind]; split; eauto; intros [? [=]]. }
  assert ((∃ moves, make_move_probs player node = Ok moves)
          ↔ Forall (attack_step_ok node) (children node)
            ∧ Forall (has_attack_child node) (party_list player)) as Hmv.
  { unfold make_move_probs.
    rewrite <- (move_loop_returns node (children node) ∅)
      by apply map_Forall_empty.
    destruct (move_loop node (children node) ∅) as [m|e] eqn:Hm;
      cbn [mbind result_bind].
    2:{ split; [intros [? [=]] | intros [[? [=]] _]]. }
    assert (Forall (has_attack_child node) (party_list player)
            ↔ Forall (fun pkmn => is_Some (m !! get_id pkmn))
                     (Party.get_sorted_list (get_party player))) as ->.
    { unfold Party.get_sorted_list. rewrite sort_by_key_Permutation.
      apply Forall_iff. intros pkmn. rewrite (move_loop_dom _ _ _ _ _ Hm).
      rewrite lookup_empty. unfold has_attack_child. split; [eauto|].
      intros [[? [=]]|?]; done. }
    rewrite <- mapM_move_block_returns.
    destruct (mapM (move_block m) _); cbn [mbind result_bind].
    - split; eauto.
    - split; [intros [? [=]] | intros [_ [? [=]]]]. }
  assert ((∃ v, make_actual_output_list player node = Ok v)
          ↔ (∃ seg, make_switch_probs player node = Ok seg)
            ∧ ∃ moves, make_move_probs player node = Ok moves) as ->.
  { unfold make_actual_output_list.
    destruct (make_switch_probs player node); cbn [mbind result_bind].
    - destruct (make_move_probs player node); cbn [mbind result_bind].
      + split; eauto.
      + split; [intros [? [=]] | intros [_ [? [=]]]].
    - split; [intros [? [=]] | intros [[? [=]] _]]. }
  rewrite Hsw, Hmv. unfold encodable. fold n.
  rewrite !Forall_forall. unfold switch_step_ok, attack_step_ok. split.
  - intros (Hs & Ha & Hp). split; [|split; [|done]].
    + destruct (children node) as [|c cs]; [by left|]. right.
      destruct (action_type c) eqn:Hty.
      * by destruct (Ha c (list_elem_of_here _ _) Hty).
      * by destruct (Hs c (list_elem_of_here _ _) Hty).
    + intros c Hin. destruct (action_type c) eqn:Hty.
      * destruct (Ha c Hin Hty) as (_ & k & Hk & Hr).
        exists k. by rewrite Hty in Hk, Hr |- *.
      * destruct (Hs c Hin Hty) as (_ & k & Hk & Hr).
        exists k. by rewrite Hty in Hk, Hr |- *.
  - intros (Hz & Hc & Hp).
    assert (∀ c, c ∈ children node → ¬ (outcome node == 0)%Q) as Hnz.
    { intros c Hin. destruct Hz as [E|?]; [|done].
      rewrite E in Hin. by apply elem_of_nil in Hin. }
    split; [|split; [|done]].
    + intros c Hin Hty. split; [eauto|].
      destruct (Hc c Hin) as (k & Hk & Hr). exists k. done.
    + intros c Hin Hty. split; [eauto|].
      destruct (Hc c Hin) as (k & Hk & Hr). exists k.
      by rewrite Hty in Hk, Hr |- *.
Qed.

(** ** Target encoder: layout of the returned vector *)

(** X8: a returned vector has POKEMON_PARTY_LIMIT switch entries (for a
    party within the limit), one block of POKEMON_MOVE_LIMIT entries per
    live Pokémon and the outcome; its length is OUTPUT_SIZE exactly when
    the party has POKEMON_PARTY_LIMIT Pokémon. *)
Theorem make_actual_output_list_output_size (player : Player)
    (node : MonteCarloNode) (v : list Q) :
  make_actual_output_list player node = Ok (NdArray v) →
  length v = (max POKEMON_PARTY_LIMIT (length (party_list player))
              + length (party_list player) * POKEMON_MOVE_LIMIT + 1)%nat
  ∧ (length v = OUTPUT_SIZE ↔ length (party_list player) = POKEMON_PARTY_LIMIT).
Proof.
  intros H%make_actual_output_list_length. split; [done|].
  rewrite H. unfold OUTPUT_SIZE, POKEMON_PARTY_LIMIT, POKEMON_MOVE_LIMIT. lia.
Qed.

Lemma make_actual_output_list_output_size_witness :
  ∃ v, make_actual_output_list duo_player duo_root = Ok (NdArray v)
       ∧ length v = 15%nat.
Proof.
  eexists. split; [vm_compute; reflexivity|].
  edestruct (make_actual_output_list_output_size duo_player duo_root)
    as [Hlen _]; [vm_compute; reflexivity|].
  exact Hlen.
Defined.

Lemma lookup_concat_uniform {A} (c : nat) (blocks : list (list A))
    (j k : nat) (b : list A) :
  Forall (fun b => length b = c) blocks →
  blocks !! j = Some b → (k < c)%nat →
  concat blocks !! (j * c + k)%nat = b !! k.
Proof.
  intros Hall. revert j. induction Hall as [|b0 blocks Hb0 _ IH]; intros j.
  - done.
  - destruct j as [|j]; cbn [concat]; intros Hj Hk.
    + injection Hj as ->. rewrite lookup_app_l by lia. done.
    + rewrite lookup_app_r by lia.
      replace (S j * c + k - length b0)%nat with (j * c + k)%nat by lia.
      by apply IH.
Qed.

Lemma take_drop_concat_uniform {A} (c : nat) (blocks : list (list A))
    (rest : list A) (j : nat) (b : list A) :
  Forall (fun b => length b = c) blocks →
  blocks !! j = Some b →
  take c (drop (j * c) (concat blocks ++ rest)) = b.
Proof.
  intros Hall. revert j. induction Hall as [|b0 blocks Hb0 _ IH]; intros j.
  - done.
  - destruct j as [|j]; cbn [concat]; intros Hj.
    + injection Hj as ->. rewrite Nat.mul_0_l, drop_0, <- app_assoc.
      by apply take_app_length'.
    + rewrite <- app_assoc.
      replace (S j * c)%nat with (length b0 + j * c)%nat by lia.
      rewrite drop_app_add. by apply IH.
Qed.

(** A returned vector, taken apart. *)
Lemma make_actual_output_list_inv (player : Player) (node : MonteCarloNode)
    (v : list Q) :
  make_actual_output_list player node = Ok (NdArray v) →
  ∃ seg m blocks,
    make_switch_probs player node = Ok seg
    ∧ move_loop node (children node) ∅ = Ok m
    ∧ Forall2 (fun pkmn block => m !! get_id pkmn = Some block)
              (Party.get_sorted_list (get_party player)) blocks
    ∧ Forall (fun block => length block = POKEMON_MOVE_LIMIT) blocks
    ∧ v = seg ++ concat blocks ++ [outcome node].
Proof.
  unfold make_actual_output_list.
  intros (seg & Hseg & H)%bind_Ok.
  apply bind_Ok in H as (moves & Hmoves & [= <-]).
  unfold make_move_probs in Hmoves.
  apply bind_Ok in Hmoves as (m & Hm & H).
  apply bind_Ok in H as (blocks & Hblocks%mapM_Ok & [= <-]).
  assert (Forall2 (fun pkmn block => m !! get_id pkmn = Some block)
                  (Party.get_sorted_list (get_party player)) blocks) as Hb.
  { eapply Forall2_impl; [exact Hblocks|]. intros pkmn block.
    unfold move_block. by destruct (m !! get_id pkmn); [intros [= ->]|]. }
  exists seg, m, blocks. repeat split; try done.
  apply move_loop_blocks in Hm; [|apply map_Forall_empty].
  clear Hblocks. induction Hb as [|pkmn block l k Hp _ IH]; constructor.
  - by apply Hm in Hp.
  - done.
Qed.

Section second_loop.
Context (node : MonteCarloNode) (Hnz : ¬ (outcome node == 0)%Q).

(** What the second loop leaves in the blocks. *)
Lemma move_loop_spec cs (m : gmap Z (list Q)) :
  attack_children_ok node cs →
  map_Forall (fun _ block => length block = POKEMON_MOVE_LIMIT) m →
  ∃ m',
    move_loop node cs m = Ok m'
    ∧ (∀ child id (k : nat),
         child ∈ cs → attack_target node child = Some (id, Z.of_nat k) →
         ∃ block, m' !! id = Some block
                  ∧ block !! k = Some (outcome child / outcome node)%Q)
    ∧ (∀ id (k : nat) block,
         (∀ child, child ∈ cs →
            attack_target node child ≠ Some (id, Z.of_nat k)) →
         m' !! id = Some block →
         block !! k
         = default (replicate POKEMON_MOVE_LIMIT EPSILON) (m !! id) !! k).
Proof.
  revert m. induction cs as [|c cs IH]; intros m [Hslots Hdup] Hm.
  - exists m. split; [done|]. split.
    + intros child id k Hin. by apply elem_of_nil in Hin.
    + intros id k block _ ->. done.
  - apply Forall_cons in Hslots as [Hc Hslots].
    cbn [move_loop]. simpl in Hdup.
    destruct (action_type c) eqn:Hty.
    2:{ assert (attack_target node c = None) as Hnone
          by (unfold attack_target; by rewrite Hty).
        rewrite Hnone in Hdup.
        destruct (IH m (conj Hslots Hdup) Hm) as (m' & Hloop & Hset & Hkeep).
        exists m'. split; [done|]. split.
        - intros child id k [->|Hin]%elem_of_cons Ht; [congruence | eauto].
        - intros id k block Hi. apply Hkeep. intros child Hin.
          apply Hi. by right. }
    destruct (Hc eq_refl) as (k0 & Hk0 & Hlt).
    set (id0 := detokenize_child c).
    assert (attack_target node c = Some (id0, Z.of_nat k0)) as Ht0
      by (unfold attack_target; by rewrite Hty, Hk0).
    rewrite Ht0 in Hdup.
    apply NoDup_cons in Hdup as [Hfresh Hdup].
    rewrite Hk0. cbn [mbind result_bind].
    assert (py_div (outcome c) (outcome node)
            = Ok (outcome c / outcome node)%Q) as ->
      by (by apply py_div_Ok).
    cbn [mbind result_bind]. fold id0.
    set (block0 := default (replicate POKEMON_MOVE_LIMIT EPSILON)
                           (m !! id0)).
    assert (length block0 = POKEMON_MOVE_LIMIT) as Hb0.
    { unfold block0. destruct (m !! id0) as [b|] eqn:E.
      - by apply Hm in E.
      - apply length_replicate. }
    rewrite py_setitem_nat by lia. cbn [mbind result_bind].
    set (block1 := <[k0 := (outcome c / outcome node)%Q]> block0).
    destruct (IH (<[id0 := block1]> m)) as (m' & Hloop & Hset & Hkeep).
    { done. }
    { apply map_Forall_insert_2; [|done].
      unfold block1. by rewrite length_insert. }
    exists m'. split; [done|]. split.
    + intros child id k [->|Hin]%elem_of_cons Ht; [|eauto].
      rewrite Ht0 in Ht. injection Ht as <- Hk. apply Nat2Z.inj in Hk as <-.
      assert (is_Some (m' !! id0)) as [block Hblock].
      { apply (move_loop_dom _ _ _ _ _ Hloop). left.
        by rewrite lookup_insert_eq. }
      exists block. split; [done|].
      rewrite (Hkeep id0 k0 block); [|
        intros child Hin Ht; apply Hfresh, list_elem_of_omap; eauto | done].
      rewrite lookup_insert_eq. cbn [default]. unfold block1.
      apply list_lookup_insert_eq. lia.
    + intros id k block Hi Hblock.
      rewrite (Hkeep id k block); [| intros child Hin; apply Hi; by right
                                   | done].
      destruct (decide (id0 = id)) as [<-|Hne].
      * rewrite lookup_insert_eq. cbn [default]. unfold block1.
        apply list_lookup_insert_ne. intros <-.
        by apply (Hi c); [left|].
      * by rewrite lookup_insert_ne.
Qed.

End second_loop.

Lemma length_concat_uniform {A} (c : nat) (blocks : list (list A)) :
  Forall (fun b => length b = c) blocks →
  length (concat blocks) = (length blocks * c)%nat.
Proof.
  induction 1 as [|b blocks Hb _ IH]; [done|].
  cbn [concat]. rewrite length_app, IH, Hb, length_cons. lia.
Qed.

(** X9: in a returned vector the value [child.outcome / node.outcome] of
    an ATTACK child stands at POKEMON_PARTY_LIMIT + j × POKEMON_MOVE_LIMIT
    + k, for [j] the sorted position of the child's Pokémon and [k] its
    move slot; the other entries of the blocks are EPSILON, and the entry
    after the last block is the outcome of the root. *)
Theorem make_actual_output_list_moves (player : Player)
    (node : MonteCarloNode) (v : list Q) :
  let sorted := Party.get_sorted_list (get_party player) in
  make_actual_output_list player node = Ok (NdArray v) →
  (length (party_list player) ≤ POKEMON_PARTY_LIMIT)%nat →
  ¬ (outcome node == 0)%Q →
  attack_children_ok node (children node) →
  (∀ child (j k : nat) pkmn,
     child ∈ children node →
     attack_target node child = Some (get_id pkmn, Z.of_nat k) →
     sorted !! j = Some pkmn →
     v !! (POKEMON_PARTY_LIMIT + j * POKEMON_MOVE_LIMIT + k)%nat
     = Some (outcome child / outcome node)%Q)
  ∧ (∀ (j k : nat) pkmn,
       sorted !! j = Some pkmn → (k < POKEMON_MOVE_LIMIT)%nat →
       (∀ child, child ∈ children node →
          attack_target node child ≠ Some (get_id pkmn, Z.of_nat k)) →
       v !! (POKEMON_PARTY_LIMIT + j * POKEMON_MOVE_LIMIT + k)%nat
       = Some EPSILON)
  ∧ v !! (POKEMON_PARTY_LIMIT
          + length (party_list player) * POKEMON_MOVE_LIMIT)%nat
    = Some (outcome node).
Proof.
  intros sorted Hv Hn Hnz Hok.
  destruct (make_actual_output_list_inv _ _ _ Hv)
    as (seg & m & blocks & Hseg & Hm & Hblocks & Hlens & ->).
  destruct (move_loop_spec node Hnz (children node) ∅ Hok)
    as (m' & Hm' & Hset & Hkeep); [apply map_Forall_empty|].
  assert (m' = m) as -> by congruence.
  assert (length seg = POKEMON_PARTY_LIMIT) as Hlseg.
  { rewrite (make_switch_probs_length _ _ _ Hseg). lia. }
  assert (length blocks = length (party_list player)) as Hlb.
  { rewrite <- (Forall2_length _ _ _ Hblocks). apply length_sorted_list. }
  pose proof (length_concat_uniform _ _ Hlens) as Hlc.
  assert (∀ (j k : nat) pkmn,
            sorted !! j = Some pkmn → (k < POKEMON_MOVE_LIMIT)%nat →
            ∃ block, m !! get_id pkmn = Some block
              ∧ (seg ++ concat blocks ++ [outcome node])
                  !! (POKEMON_PARTY_LIMIT + j * POKEMON_MOVE_LIMIT + k)%nat
                = block !! k) as Hat.
  { intros j k pkmn Hj Hk.
    destruct (Forall2_lookup_l _ _ _ _ _ Hblocks Hj) as (block & Hb & Hmb).
    exists block. split; [done|].
    assert (j < length blocks)%nat by (by apply lookup_lt_Some in Hb).
    rewrite lookup_app_r by lia. rewrite lookup_app_l by nia.
    replace (POKEMON_PARTY_LIMIT + j * POKEMON_MOVE_LIMIT + k - length seg)%nat
      with (j * POKEMON_MOVE_LIMIT + k)%nat by lia.
    by apply lookup_concat_uniform. }
  split; [|split].
  - intros child j k pkmn Hin Ht Hj.
    assert (k < POKEMON_MOVE_LIMIT)%nat as Hk.
    { destruct Hok as [Hslots _]. rewrite Forall_forall in Hslots.
      unfold attack_target in Ht.
      destruct (action_type child) eqn:Hty; [|done].
      destruct (Hslots child Hin Hty) as (k' & Hk' & Hlt).
      rewrite Hk' in Ht. injection Ht as _ Ht. lia. }
    destruct (Hat j k pkmn Hj Hk) as (block & Hb & ->).
    destruct (Hset child _ k Hin Ht) as (block' & Hb' & Hq). congruence.
  - intros j k pkmn Hj Hk Hnone.
    destruct (Hat j k pkmn Hj Hk) as (block & Hb & ->).
    rewrite (Hkeep _ k block Hnone Hb), lookup_empty. cbn [default].
    by apply lookup_replicate_2.
  - rewrite lookup_app_r by lia. rewrite lookup_app_r by lia.
    by replace (POKEMON_PARTY_LIMIT
                + length (party_list player) * POKEMON_MOVE_LIMIT
                - length seg - length (concat blocks))%nat with 0%nat by lia.
Qed.

Lemma make_actual_output_list_moves_witness :
  ∃ v, make_actual_output_list duo_player duo_root = Ok (NdArray v)
       ∧ v !! 10%nat = Some (3 / 4)%Q
       ∧ v !! 7%nat = Some EPSILON
       ∧ v !! 14%nat = Some 4%Q.
Proof.
  eexists. split; [vm_compute; reflexivity|].
  edestruct (make_actual_output_list_moves duo_player duo_root)
    as (Hset & Heps & Hout).
  - vm_compute. reflexivity.
  - vm_compute. lia.
  - by vm_compute.
  - split.
    + repeat constructor; try discriminate;
        intros _; exists 0%nat; (split; [reflexivity | vm_compute; lia]).
    + apply (bool_decide_unpack _). by vm_compute.
  - split; [|split].
    + apply (Hset (leaf ATTACK "m0" 3 10) 1%nat 0%nat pikachu);
        [by right; left | reflexivity..].
    + apply (Heps 0%nat 1%nat bulbasaur); [reflexivity | vm_compute; lia|].
      intros child Hin.
      repeat (apply elem_of_cons in Hin as [->|Hin]);
        [discriminate.. | by apply elem_of_nil in Hin].
    + exact Hout.
Defined.

(** ** Target encoder: where the entries come from *)

Lemma py_setitem_Forall {A} (P : A → Prop) (l l' : list A) (i : Z) (v : A) :
  Forall P l → P v → py_setitem l i v = Ok l' → Forall P l'.
Proof.
  intros Hl Hv. unfold py_setitem.
  repeat case_decide; intros [= <-]; by apply Forall_insert.
Qed.

Lemma switch_loop_entries (P : Q → Prop) node cs (probs probs' : list Q) :
  Forall P probs →
  (∀ c, c ∈ cs → action_type c = SWITCH → ¬ (outcome node == 0)%Q →
        P (outcome c / outcome node)%Q) →
  switch_loop node cs probs = Ok probs' →
  Forall P probs'.
Proof.
  revert probs. induction cs as [|c cs IH]; intros probs Hp Hc;
    cbn [switch_loop].
  - by intros [= <-].
  - destruct (action_type c) eqn:Hty.
    { apply IH; [done|]. intros c' Hin. apply Hc. by right. }
    intros (k & _ & H)%bind_Ok.
    apply bind_Ok in H as (q & [Hnz ->]%py_div_Ok & H).
    apply bind_Ok in H as (probs1 & Hset & H).
    apply (IH probs1); [| |done].
    + eapply py_setitem_Forall; [exact Hp| |exact Hset].
      apply Hc; [by left | done..].
    + intros c' Hin. apply Hc. by right.
Qed.

Lemma make_switch_probs_entries (P : Q → Prop) player node (seg : list Q) :
  P EPSILON →
  (∀ c, c ∈ children node → action_type c = SWITCH →
        ¬ (outcome node == 0)%Q → P (outcome c / outcome node)%Q) →
  make_switch_probs player node = Ok seg →
  Forall P seg.
Proof.
  intros He Hc. unfold make_switch_probs.
  intros (probs & Hloop & [= <-])%bind_Ok.
  apply switch_loop_entries with (P := P) in Hloop;
    [|by apply Forall_replicate | done].
  apply Forall_app. split; [|by apply Forall_replicate].
  apply Forall_fmap, Forall_forall. intros [q pkmn] Hin.
  rewrite sort_by_key_Permutation in Hin. apply elem_of_zip_l in Hin.
  rewrite Forall_forall in Hloop. by apply Hloop.
Qed.

Lemma move_loop_entries (P : Q → Prop) node cs (m m' : gmap Z (list Q)) :
  P EPSILON →
  map_Forall (fun _ block => Forall P block) m →
  (∀ c, c ∈ cs → action_type c = ATTACK → ¬ (outcome node == 0)%Q →
        P (outcome c / outcome node)%Q) →
  move_loop node cs m = Ok m' →
  map_Forall (fun id block =>
                Forall P block) m'.
Proof.
  intros He. revert m. induction cs as [|c cs IH]; intros m Hm Hc;
    cbn [move_loop].
  - by intros [= <-].
  - destruct (action_type c) eqn:Hty.
    2:{ apply IH; [done|]. intros c' Hin. apply Hc. by right. }
    intros (k & _ & H)%bind_Ok.
    apply bind_Ok in H as (q & [Hnz ->]%py_div_Ok & H).
    apply bind_Ok in H as (block & Hset & H).
    apply (IH _) in H; [done| |].
    + apply map_Forall_insert_2; [|done].
      eapply py_setitem_Forall; [| |exact Hset].
      * destruct (m !! detokenize_child c) as [b|] eqn:E; cbn [default].
        -- by apply Hm in E.
        -- by apply Forall_replicate.
      * apply Hc; [by left | done..].
    + intros c' Hin. apply Hc. by right.
Qed.

(** Every entry before the outcome satisfies what EPSILON and the
    ratios of the children satisfy. *)
Lemma make_actual_output_list_entries (P : Q → Prop) player node
    (v : list Q) :
  P EPSILON →
  (∀ c, c ∈ children node → ¬ (outcome node == 0)%Q →
        P (outcome c / outcome node)%Q) →
  make_actual_output_list player node = Ok (NdArray v) →
  ∃ probs, v = probs ++ [outcome node] ∧ Forall P probs.
Proof.
  intros He Hc Hv.
  destruct (make_actual_output_list_inv _ _ _ Hv)
    as (seg & m & blocks & Hseg & Hm & Hblocks & _ & ->).
  exists (seg ++ concat blocks). split; [by rewrite <- app_assoc|].
  apply Forall_app. split.
  - apply (make_switch_probs_entries P player node); [done| |done].
    intros c Hin _. by apply Hc.
  - apply move_loop_entries with (P := P) in Hm;
      [|done | apply map_Forall_empty | intros c Hin _; by apply Hc].
    apply Forall_concat.
    clear Hv. induction Hblocks as [|pkmn block l k Hb _ IH]; [constructor|].
    constructor; [by apply Hm in Hb | done].
Qed.

(** X10: when the outcome of the root is positive and no outcome of a
    child is negative, no entry of a returned vector is negative. *)
Theorem make_actual_output_list_nonnegative (player : Player)
    (node : MonteCarloNode) (v : list Q) :
  (0 < outcome node)%Q →
  Forall (fun child => (0 <= outcome child)%Q) (children node) →
  make_actual_output_list player node = Ok (NdArray v) →
  Forall (fun x => (0 <= x)%Q) v.
Proof.
  intros Ho Hc Hv.
  destruct (make_actual_output_list_entries (fun x => (0 <= x)%Q) _ _ _
              ltac:(by vm_compute)
              ltac:(intros c Hin _; rewrite Forall_forall in Hc;
                    apply Qle_shift_div_l; [done|];
                    rewrite Qmult_0_l; by apply Hc)
              Hv) as (probs & -> & Hp).
  apply Forall_app. split; [done|]. constructor; [|done].
  by apply Qlt_le_weak.
Qed.

Lemma make_actual_output_list_nonnegative_witness :
  ∃ v, make_actual_output_list duo_player duo_root = Ok (NdArray v)
       ∧ Forall (fun x => (0 <= x)%Q) v.
Proof.
  eexists. split; [vm_compute; reflexivity|].
  apply (make_actual_output_list_nonnegative duo_player duo_root);
    [by vm_compute | repeat constructor; by vm_compute
    | vm_compute; reflexivity].
Defined.

(** ** Action decoder: failures and results *)

Lemma located_or_missing (player : Player) :
  (∃ i, located_at player i)
  ∨ Forall (fun pkmn => get_id pkmn ≠ get_id (starting player))
           (Party.get_sorted_list (get_party player)).
Proof.
  unfold located_at.
  induction (Party.get_sorted_list (get_party player)) as [|p l IH].
  - right. constructor.
  - destruct (decide (get_id p = get_id (starting player))) as [Heq|Hne].
    + left. exists 0%nat, p. split; [done|]. split; [done|]. lia.
    + destruct IH as [(i & q & Hi & Hq & Hfirst)|Hall].
      * left. exists (S i), q. split; [done|]. split; [done|].
        intros [|j] q' Hj Hq'; [by injection Hq' as <-|].
        apply (Hfirst j); [lia | done].
      * right. by constructor.
Qed.

Lemma located_at_missing (player : Player) (i : nat) :
  located_at player i →
  Forall (fun pkmn => get_id pkmn ≠ get_id (starting player))
         (Party.get_sorted_list (get_party player)) →
  False.
Proof.
  intros (pkmn & Hi & Hid & _) Hall. rewrite Forall_forall in Hall.
  by apply (Hall pkmn); [apply list_elem_of_lookup_2 in Hi|].
Qed.

Lemma located_at_unique (player : Player) (i i' : nat) :
  located_at player i → located_at player i' → i = i'.
Proof.
  intros (p & Hi & Hp & Hfirst) (p' & Hi' & Hp' & Hfirst').
  destruct (Nat.lt_trichotomy i i') as [H|[H|H]]; [|done|].
  - by destruct (Hfirst' i p H Hi).
  - by destruct (Hfirst i' p' H Hi').
Qed.

(** A vector too short to hold the block of the starting Pokémon. *)
Lemma decode_action_short (output : pyseq) (player : Player) (i : nat) :
  located_at player i →
  (length (items output) ≤ POKEMON_PARTY_LIMIT + i * POKEMON_MOVE_LIMIT)%nat →
  decode_action output player = Err ValueError.
Proof.
  intros (pkmn & Hi & Hid & Hfirst) Hlen. unfold decode_action.
  fold (starting player).
  rewrite (find_current_found _ _ 0 i pkmn Hi Hid Hfirst).
  rewrite decide_True by lia. rewrite Z.add_0_l, Nat2Z.id.
  assert (seq_max
            (seq_slice output (POKEMON_PARTY_LIMIT + i * POKEMON_MOVE_LIMIT)
               (POKEMON_PARTY_LIMIT + i * POKEMON_MOVE_LIMIT
                + POKEMON_MOVE_LIMIT))
          = Err ValueError) as ->; [|done].
  destruct output as [l|l]; cbn [items] in Hlen;
    unfold seq_max, seq_slice, items, py_slice;
    by rewrite drop_ge, take_nil by lia.
Qed.

(** Every other list leads to a decision or to the lookup of a move. *)
Lemma decode_action_long (output : list Q) (player : Player) (i : nat) :
  located_at player i →
  (POKEMON_PARTY_LIMIT + i * POKEMON_MOVE_LIMIT < length output)%nat →
  ∃ (km ks : nat) (mv sv : Q),
    first_argmax
      (take POKEMON_MOVE_LIMIT
         (drop (POKEMON_PARTY_LIMIT + i * POKEMON_MOVE_LIMIT) output)) km mv
    ∧ first_argmax (take POKEMON_PARTY_LIMIT output) ks sv
    ∧ decode_action (PyList output) player
      = if Qle_bool sv mv then
          match MoveBank.get_as_list (get_move_bank (starting player)) !! km
          with
          | Some attack => Ok (TakeTurnAttack attack)
          | None => Err IndexError
          end
        else Ok (TakeTurnSwitch ks).
Proof.
  intros Hloc Hlen.
  destruct (py_max_first_argmax
              (take POKEMON_MOVE_LIMIT
                 (drop (POKEMON_PARTY_LIMIT + i * POKEMON_MOVE_LIMIT) output)))
    as (km & mv & _ & Hmove).
  { intros E. apply (f_equal length) in E.
    rewrite length_take, length_drop in E. cbn [length] in E.
    unfold POKEMON_MOVE_LIMIT, POKEMON_PARTY_LIMIT in *. lia. }
  destruct (py_max_first_argmax (take POKEMON_PARTY_LIMIT output))
    as (ks & sv & _ & Hswitch).
  { intros E. apply (f_equal length) in E.
    rewrite length_take in E. cbn [length] in E.
    unfold POKEMON_MOVE_LIMIT, POKEMON_PARTY_LIMIT in *. lia. }
  exists km, ks, mv, sv. split; [done|]. split; [done|].
  by apply (decode_action_located output player i).
Qed.

(** The decoder on either kind of vector, by the place of the starting
    Pokémon and the length of the vector. *)
Lemma decode_action_cases (output : pyseq) (player : Player) :
  (no_move_block player (length (items output))
   ∧ decode_action output player = Err ValueError)
  ∨ (¬ no_move_block player (length (items output))
     ∧ match output with
       | NdArray _ => decode_action output player = Err AttributeError
       | PyList l =>
           ∃ (ks : nat) (sv : Q),
             first_argmax (take POKEMON_PARTY_LIMIT l) ks sv
             ∧ (decode_action output player = Ok (TakeTurnSwitch ks)
                ∨ decode_action output player = Err IndexError
                ∨ ∃ attack,
                    attack ∈ MoveBank.get_as_list
                               (get_move_bank (starting player))
                    ∧ decode_action output player
                      = Ok (TakeTurnAttack attack))
       end).
Proof.
  unfold no_move_block.
  destruct (located_or_missing player) as [[i Hloc]|Hmiss].
  2:{ left. split; [|by apply decode_action_missing_starting].
      intros i Hloc. destruct (located_at_missing _ _ Hloc Hmiss). }
  destruct (decide (length (items output)
                    ≤ POKEMON_PARTY_LIMIT + i * POKEMON_MOVE_LIMIT)%nat)
    as [Hshort|Hlong].
  { left. split; [|by apply (decode_action_short _ _ i)].
    intros i' Hloc'. by rewrite <- (located_at_unique _ _ _ Hloc Hloc'). }
  right. split; [intros H; specialize (H i Hloc); lia|].
  destruct output as [l|l]; cbn [items] in Hlong.
  - destruct (decode_action_long l player i Hloc)
      as (km & ks & mv & sv & _ & Hks & ->); [lia|].
    exists ks, sv. split; [done|].
    destruct (Qle_bool sv mv); [|by left].
    destruct (_ !! km) as [attack|] eqn:Hkm; [|right; by left].
    right. right. exists attack. split; [|done].
    by apply list_elem_of_lookup_2 in Hkm.
  - apply (decode_action_ndarray l player i Hloc). lia.
Qed.

(** X13: on a list and on a numpy array alike, the decoder raises
    ValueError exactly when the output vector has no entry at the start
    of the starting Pokémon's block, which includes a starting Pokémon
    missing from the party.  On every other numpy array it raises
    AttributeError, so that it returns on no numpy array; on a list it
    raises no exception other than ValueError and IndexError. *)
Theorem decode_action_raises (output : list Q) (player : Player) :
  (decode_action (PyList output) player = Err ValueError
   ↔ no_move_block player (length output))
  ∧ (∀ e, decode_action (PyList output) player = Err e →
          e = ValueError ∨ e = IndexError)
  ∧ (decode_action (NdArray output) player = Err ValueError
     ↔ no_move_block player (length output))
  ∧ (decode_action (NdArray output) player = Err AttributeError
     ↔ ¬ no_move_block player (length output))
  ∧ (∀ model, decode_action (NdArray output) player ≠ Ok model).
Proof.
  destruct (decode_action_cases (PyList output) player)
    as [[Hl ->]|(Hl & ks & sv & _ & [->|[->|(attack & _ & ->)]])];
    destruct (decode_action_cases (NdArray output) player)
      as [[Ha ->]|[Ha ->]];
    cbn [items] in Hl, Ha; try done;
    (split; [split; done|]); (split; [try done|]);
    try (intros e [= <-]; auto);
    (split; [split; done|]); (split; [split; done | done]).
Qed.

(** X14: a decision of the decoder is either an attack with a move of
    the starting Pokémon's move bank or a switch to an index below
    POKEMON_PARTY_LIMIT that is a position of the output vector; the
    [take_turn] of the returned model calls that one callback and never
    [use_item]. *)
Theorem decode_action_result (output : pyseq) (player : Player)
    (model : ModelInterface) :
  decode_action output player = Ok model →
  (∃ attack,
      attack ∈ MoveBank.get_as_list (get_move_bank (starting player))
      ∧ take_turn model = [do_move attack])
  ∨ (∃ k : nat,
        (k < POKEMON_PARTY_LIMIT)%nat ∧ (k < length (items output))%nat
        ∧ take_turn model = [switch_pokemon k]).
Proof.
  intros H.
  destruct (decode_action_cases output player) as [[_ E]|[_ E]];
    [by rewrite E in H|].
  destruct output as [l|l]; [|by rewrite E in H].
  destruct E as (ks & sv & [Hks _] & [E|[E|(attack & Hin & E)]]);
    rewrite E in H; [| done |].
  - injection H as <-. right. exists ks.
    apply lookup_lt_Some in Hks. rewrite length_take in Hks.
    cbn [items]. split; [lia|]. split; [lia | done].
  - injection H as <-. left. by exists attack.
Qed.

Lemma decode_action_result_witness :
  ∃ k : nat, (k < POKEMON_PARTY_LIMIT)%nat
             ∧ take_turn <$> decode_action (PyList switch_output) solo_player
               = Ok [switch_pokemon k].
Proof.
  destruct (decode_action_result (PyList switch_output) solo_player
              (TakeTurnSwitch 2))
    as [(attack & _ & [=])|(k & Hk & _ & Hcall)].
  - vm_compute. reflexivity.
  - exists k. split; [done|]. injection Hcall as <-.
    vm_compute. reflexivity.
Defined.

(** ** Loss function: failures, finiteness and bounds *)

Lemma calculate_loss_snoc (tp op : list R) (t o : R) :
  calculate_loss (tp ++ [t]) (op ++ [o])
  = policy_comp ← np_dot op (np_log <$> tp);
    Ok (pc ← policy_comp; Some (Rsqr (t - o) + pc)%R).
Proof.
  unfold calculate_loss, py_last. rewrite !last_snoc.
  cbn [mbind result_bind]. by rewrite !removelast_last.
Qed.

Lemma calculate_loss_positive (tp op : list R) (t o : R) :
  length tp = length op →
  Forall (fun x => (0 < x)%R) tp →
  calculate_loss (tp ++ [t]) (op ++ [o])
  = Ok (Some (Rsqr (t - o)
              + foldr Rplus 0 (zip_with Rmult op (ln <$> tp)))%R).
Proof.
  intros Hlen Hall. rewrite calculate_loss_snoc, (np_log_positive _ Hall).
  by rewrite np_dot_finite by (by rewrite length_fmap).
Qed.

Lemma list_nil_or_snoc {A} (l : list A) : l = [] ∨ ∃ l' x, l = l' ++ [x].
Proof.
  induction l as [|x l _] using rev_ind; [by left | right; eauto].
Qed.

(** X15: [calculate_loss] raises IndexError exactly when one of the two
    vectors is empty, ValueError exactly when both are non-empty and
    their lengths differ, and returns otherwise. *)
Theorem calculate_loss_raises (game_output output : list R) :
  (calculate_loss game_output output = Err IndexError
   ↔ game_output = [] ∨ output = [])
  ∧ (calculate_loss game_output output = Err ValueError
     ↔ game_output ≠ [] ∧ output ≠ []
       ∧ length game_output ≠ length output)
  ∧ ((∃ r, calculate_loss game_output output = Ok r)
     ↔ game_output ≠ [] ∧ length game_output = length output).
Proof.
  destruct (list_nil_or_snoc output) as [->|(op & o & ->)].
  { assert (calculate_loss game_output [] = Err IndexError) as ->
      by reflexivity.
    split; [|split].
    - split; [by right | done].
    - split; [done | by intros (_ & ? & _)].
    - split; [intros [? [=]] | intros [Hne Hlen]].
      by destruct game_output. }
  destruct (list_nil_or_snoc game_output) as [->|(tp & t & ->)].
  { assert (calculate_loss [] (op ++ [o]) = Err IndexError) as ->
      by (unfold calculate_loss, py_last; by rewrite last_snoc).
    split; [|split].
    - split; [by left | done].
    - split; [done | by intros (? & _)].
    - split; [intros [? [=]] | by intros [? _]]. }
  rewrite calculate_loss_snoc. unfold np_dot.
  rewrite length_fmap, !length_app. cbn [length].
  assert (tp ++ [t] ≠ []) as Hne1 by (by destruct tp).
  assert (op ++ [o] ≠ []) as Hne2 by (by destruct op).
  case_decide as Hlen; cbn [mbind result_bind].
  - split; [|split].
    + split; [done | intros [?|?]; done].
    + split; [done | intros (_ & _ & ?); lia].
    + split; [intros _; split; [done | lia] | eauto].
  - split; [|split].
    + split; [done | intros [?|?]; done].
    + split; [intros _; repeat split; [done..|lia] | done].
    + split; [intros [? [=]] | intros [_ ?]; lia].
Qed.

Lemma np_dot_some (a b : list R) :
  length a = length b →
  ∃ s, np_dot a (Some <$> b) = Ok (Some s)
       ∧ s = foldr Rplus 0%R (zip_with Rmult a b).
Proof. intros H. eexists. split; [by apply np_dot_finite | done]. Qed.

Lemma np_dot_none (a : list R) (b : list (option R)) :
  length a = length b → None ∈ b → np_dot a b = Ok None.
Proof.
  intros Hlen Hin. unfold np_dot. rewrite decide_True by done. f_equal.
  revert a Hlen. induction b as [|y b IH]; intros [|x a] Hlen;
    try done; [by apply elem_of_nil in Hin|].
  cbn [zip zip_with foldr]. apply elem_of_cons in Hin as [<-|Hin].
  - done.
  - cbn [fst snd]. rewrite IH; [|done | by injection Hlen].
    by destruct y.
Qed.

(** X16: for vectors of equal length, a leading entry of the target
    that is not positive makes the loss a value that is not a real
    number: its logarithm is an infinity or NaN, and so is every sum it
    enters.  Hence a loss that is a real number has a target whose
    leading entries are all positive. *)
Theorem calculate_loss_nonpositive_target (tp op : list R) (t o : R) :
  length tp = length op →
  (Exists (fun x => (x <= 0)%R) tp →
   calculate_loss (tp ++ [t]) (op ++ [o]) = Ok None)
  ∧ (∀ r, calculate_loss (tp ++ [t]) (op ++ [o]) = Ok (Some r) →
          Forall (fun x => (0 < x)%R) tp).
Proof.
  intros Hlen.
  assert (Exists (fun x => (x <= 0)%R) tp →
          calculate_loss (tp ++ [t]) (op ++ [o]) = Ok None) as Hnone.
  { intros Hex. rewrite calculate_loss_snoc.
    assert (None ∈ np_log <$> tp) as Hin.
    { apply Exists_exists in Hex as (x & Hx & Hle).
      apply list_elem_of_fmap. exists x. split; [|done].
      unfold np_log. destruct (Rlt_dec 0 x); [lra | done]. }
    by rewrite (np_dot_none op (np_log <$> tp))
      by (by rewrite ?length_fmap). }
  split; [exact Hnone|]. intros r Hr.
  apply Forall_forall. intros x Hx.
  destruct (Rlt_dec 0 x) as [Hpos|Hneg]; [done|].
  rewrite Hnone in Hr; [done|].
  apply Exists_exists. exists x. split; [done | lra].
Qed.

Lemma calculate_loss_nonpositive_target_witness :
  calculate_loss [0; 1; 2]%R [3; 4; 5]%R = Ok None.
Proof.
  apply (calculate_loss_nonpositive_target [0; 1]%R [3; 4]%R 2%R 5%R);
    [done|]. apply Exists_cons_hd. lra.
Defined.

(** X17: for fixed leading entries, the loss grows with the distance
    between the two outcomes: the difference of two losses is the
    difference of the squared outcome gaps. *)
Theorem calculate_loss_outcome_monotone (tp op : list R) (t o1 o2 r1 r2 : R) :
  calculate_loss (tp ++ [t]) (op ++ [o1]) = Ok (Some r1) →
  calculate_loss (tp ++ [t]) (op ++ [o2]) = Ok (Some r2) →
  (r2 - r1 = Rsqr (t - o2) - Rsqr (t - o1))%R
  ∧ ((r1 <= r2)%R ↔ (Rabs (t - o1) <= Rabs (t - o2))%R).
Proof.
  rewrite !calculate_loss_snoc.
  destruct (np_dot op (np_log <$> tp)) as [[pc|]|e];
    cbn [mbind result_bind option_bind]; try done.
  intros [= <-] [= <-]. split; [lra|]. split.
  - intros H. apply Rsqr_le_abs_0. lra.
  - intros H%Rsqr_le_abs_1. lra.
Qed.

Lemma calculate_loss_outcome_monotone_witness :
  ∃ r1 r2, calculate_loss [1; 2]%R [3; 2]%R = Ok (Some r1)
           ∧ calculate_loss [1; 2]%R [3; 5]%R = Ok (Some r2)
           ∧ (r1 <= r2)%R.
Proof.
  assert (Forall (fun x => (0 < x)%R) [1%R]) as Hpos
    by (repeat constructor; lra).
  pose proof (calculate_loss_positive [1]%R [3]%R 2 2 eq_refl Hpos) as H1.
  pose proof (calculate_loss_positive [1]%R [3]%R 2 5 eq_refl Hpos) as H2.
  eexists _, _. split; [exact H1|]. split; [exact H2|].
  apply (calculate_loss_outcome_monotone [1]%R [3]%R 2%R 2%R 5%R _ _ H1 H2).
  rewrite Rminus_diag, Rabs_R0. apply Rabs_pos.
Defined.

Lemma ln_nonpos (x : R) : (0 < x <= 1)%R → (ln x <= 0)%R.
Proof.
  intros [Hpos [Hlt | ->] ].
  - rewrite <- ln_1. left. by apply ln_increasing.
  - rewrite ln_1. lra.
Qed.

(** X18: the policy term is not negated: when the leading entries of the
    target lie in (0, 1] and those of the output are not negative, the
    policy term is at most zero, so the loss is at most the squared
    difference of the outcomes. *)
Theorem calculate_loss_upper_bound (tp op : list R) (t o : R) :
  length tp = length op →
  Forall (fun x => (0 < x <= 1)%R) tp →
  Forall (fun y => (0 <= y)%R) op →
  ∃ r, calculate_loss (tp ++ [t]) (op ++ [o]) = Ok (Some r)
       ∧ (r <= Rsqr (t - o))%R.
Proof.
  intros Hlen Htp Hop. rewrite calculate_loss_snoc.
  rewrite np_log_positive
    by (eapply Forall_impl; [exact Htp|]; intros x; simpl; lra).
  rewrite np_dot_finite by (by rewrite length_fmap).
  cbn [mbind result_bind option_bind]. eexists. split; [done|].
  assert (foldr Rplus 0 (zip_with Rmult op (ln <$> tp)) <= 0)%R; [|lra].
  clear t o. revert tp Hlen Htp.
  induction Hop as [|y op Hy _ IH]; intros [|x tp] Hlen Htp;
    try done; csimpl; try lra.
  apply Forall_cons in Htp as [Hx Htp].
  specialize (IH tp ltac:(by injection Hlen) Htp).
  pose proof (ln_nonpos x Hx). nra.
Qed.

Lemma calculate_loss_upper_bound_witness :
  ∃ r, calculate_loss [1; 1; 2]%R [3; 4; 5]%R = Ok (Some r)
       ∧ (r <= Rsqr (2 - 5))%R.
Proof.
  apply (calculate_loss_upper_bound [1; 1]%R [3; 4]%R 2%R 5%R);
    [done | repeat constructor; lra..].
Defined.

(** ** Two children for one slot, and the failures of [predict_move] *)

Lemma switch_loop_app node cs1 cs2 (probs : list Q) :
  switch_loop node (cs1 ++ cs2) probs
  = switch_loop node cs1 probs ≫= switch_loop node cs2.
Proof.
  revert probs. induction cs1 as [|c cs1 IH]; intros probs; [done|].
  cbn [app switch_loop]. destruct (action_type c); [apply IH|].
  destruct (first_key node c SWITCH); [|done]. cbn [mbind result_bind].
  destruct (py_div (outcome c) (outcome node)); [|done].
  cbn [mbind result_bind].
  destruct (py_setitem probs a a0); [|done]. cbn [mbind result_bind].
  apply IH.
Qed.

(** Children that target other slots leave a slot as it is. *)
Lemma switch_loop_keep node cs (probs probs' : list Q) (a : nat) :
  (∀ c k, c ∈ cs → switch_target node c = Some k →
          (0 ≤ k)%Z ∧ k ≠ Z.of_nat a) →
  switch_loop node cs probs = Ok probs' →
  probs' !! a = probs !! a.
Proof.
  revert probs. induction cs as [|c cs IH]; intros probs Hc;
    cbn [switch_loop].
  - by intros [= <-].
  - destruct (action_type c) eqn:Hty.
    { apply IH. intros c' k Hin. apply Hc. by right. }
    intros (k & Hk & H)%bind_Ok. apply bind_Ok in H as (q & _ & H).
    apply bind_Ok in H as (probs1 & Hset & H).
    rewrite (IH probs1); [| |done].
    + destruct (Hc c k) as [Hpos Hne]; [by left | |].
      { apply switch_target_Some. by split. }
      unfold py_setitem in Hset. repeat case_decide; try lia; [|done].
      injection Hset as <-. apply list_lookup_insert_ne. lia.
    + intros c' k' Hin. apply Hc. by right.
Qed.

(** X19: when several SWITCH children resolve to the same as-is slot,
    the value of the last of them in the order of [node.children] is the
    one a returned switch segment holds for that slot. *)
Theorem make_switch_probs_last_wins (player : Player) (node : MonteCarloNode)
    (cs1 cs2 : list MonteCarloNode) (child : MonteCarloNode) (a j : nat)
    (pkmn : Pokemon) (seg : list Q) :
  children node = cs1 ++ child :: cs2 →
  make_switch_probs player node = Ok seg →
  NoDup (get_id <$> party_list player) →
  switch_target node child = Some (Z.of_nat a) →
  (∀ c k, c ∈ cs2 → switch_target node c = Some k →
          (0 ≤ k)%Z ∧ k ≠ Z.of_nat a) →
  party_list player !! a = Some pkmn →
  Party.get_sorted_list (get_party player) !! j = Some pkmn →
  seg !! j = Some (outcome child / outcome node)%Q.
Proof.
  intros Hcs Hseg Hids Ht Hrest Ha Hj.
  assert (NoDup (party_list player)) as Hnd by (by apply NoDup_fmap_1 in Hids).
  unfold make_switch_probs in Hseg. fold (party_list player) in Hseg.
  apply bind_Ok in Hseg as (probs & Hloop & [= <-]).
  assert (length probs = length (party_list player)) as Hlen.
  { rewrite (switch_loop_length _ _ _ _ Hloop). apply length_replicate. }
  rewrite Hcs, switch_loop_app in Hloop.
  apply bind_Ok in Hloop as (probs1 & _ & Hloop).
  cbn [switch_loop] in Hloop.
  apply switch_target_Some in Ht as [Hty Hk]. rewrite Hty, Hk in Hloop.
  cbn [mbind result_bind] in Hloop.
  apply bind_Ok in Hloop as (q & [_ ->]%py_div_Ok & Hloop).
  apply bind_Ok in Hloop as (probs2 & Hset & Hloop).
  pose proof (switch_loop_keep _ _ _ _ a Hrest Hloop) as Hkeep.
  pose proof (switch_loop_length _ _ _ _ Hloop) as Hl2.
  pose proof (py_setitem_Ok _ _ _ _ Hset) as Hl1.
  assert (a < length probs1)%nat as Hlt.
  { apply lookup_lt_Some in Ha. lia. }
  rewrite (py_setitem_nat _ _ _ Hlt) in Hset. injection Hset as <-.
  rewrite list_lookup_insert_eq in Hkeep by done.
  assert (j < length (party_list player))%nat.
  { apply lookup_lt_Some in Hj. by rewrite length_sorted_list in Hj. }
  rewrite lookup_app_l
    by (rewrite length_fmap, length_sort_by_key, length_zip; lia).
  rewrite (sorted_tuple_lookup probs (party_list player) a j pkmn); eauto.
Qed.

Lemma decode_action_no_division (output : pyseq) (player : Player) :
  decode_action output player ≠ Err ZeroDivisionError.
Proof.
  destruct (decode_action_cases output player) as [[_ ->]|[_ E]]; [done|].
  destruct output as [l|l]; [|by rewrite E].
  by destruct E as (ks & sv & _ & [->|[->|(attack & _ & ->)]]).
Qed.

(** X20: [predict_move] raises ZeroDivisionError exactly when a base HP
    or base PP of either party, the opponent's included, is zero; when
    none is and the rows collected for the state matrix differ in
    length, it raises the ValueError of [np.array].  Both hold whatever
    the model would return. *)
Theorem predict_move_raises (model : list (list Q) → pyseq)
    (player other_player : Player) :
  (predict_move model player other_player = Err ZeroDivisionError
   ↔ ¬ Forall base_stats_nonzero
         (party_list player ++ party_list other_player))
  ∧ (Forall base_stats_nonzero
       (party_list player ++ party_list other_player)
     ∧ ¬ rows_of_one_width player other_player →
     predict_move model player other_player = Err ValueError).
Proof.
  pose proof (input_rows_one_width player other_player) as Hw.
  cbv zeta in Hw. unfold predict_move.
  destruct (make_input_matrix_inv player other_player) as [[H ->]|[H ->]].
  - match goal with |- context [np_array ?rows] =>
      destruct (np_array_inv rows) as [[-> Hc]|[-> Hc]] end;
      rewrite Hw in Hc; cbn [mbind result_bind].
    + split; [|tauto].
      split; [|done]. intros E. by apply decode_action_no_division in E.
    + split; [split; done | done].
  - cbn [mbind result_bind]. split; [done | tauto].
Qed.

Lemma make_switch_probs_last_wins_witness :
  ∃ seg, make_switch_probs duo_player twice_root = Ok seg
         ∧ seg !! 0%nat = Some (2 / 4)%Q.
Proof.
  eexists. split; [vm_compute; reflexivity|].
  apply (make_switch_probs_last_wins duo_player twice_root
           [leaf SWITCH "s1" 1 0] [] (leaf SWITCH "t1" 2 0) 1%nat 0%nat
           bulbasaur).
  - reflexivity.
  - vm_compute. reflexivity.
  - apply (bool_decide_unpack _). by vm_compute.
  - reflexivity.
  - intros c k Hin. by apply elem_of_nil in Hin.
  - reflexivity.
  - reflexivity.
Defined.
